(** * effect-env: validation reporter and prefix enforcement

    A shallow embedding of
    - [src/services/prefix-enforcement/service.ts] (resolveMeta,
      uniqueSorted, serverViolations, clientViolations, buildMessage,
      makePrefixEnforcement), with [mergeMeta] of the env service;
    - [src/env/validate.ts] (formatValidationReport and the error extraction
      of validate).

    A JS string is held as its UTF-8 encoding, a Stdlib string of bytes;
    [.length], [.slice] and [.trim] of the report messages and of the
    accessors count UTF-16 code units, through [units] below.  Environment
    keys are ASCII: for them bytes and code units coincide, and so do the
    byte order of [String.leb] and the code-unit order of
    [Array.prototype.sort]. *)

From Stdlib Require Import String Ascii List Bool Arith Lia Sorting.Sorted
  Sorting.Permutation NArith ZArith.
Import ListNotations.
Open Scope string_scope.
Open Scope list_scope.

(** ** Shared types ([src/services/shared/types.ts]) *)

Record EnvMeta := mkEnvMeta {
  serverKeys : list string;
  clientKeys : list string;
  clientPrefix : string
}.

(** [Partial<EnvMeta>]: every field may be absent. *)
Record PartialEnvMeta := mkPartialEnvMeta {
  o_serverKeys : option (list string);
  o_clientKeys : option (list string);
  o_clientPrefix : option string
}.

Definition noOverride : PartialEnvMeta := mkPartialEnvMeta None None None.

(** An [EnvRecord] as the list of its own entries; [Object.keys] is
    [map fst].  The values are left abstract. *)
Section Records.
Variable V : Type.

Definition EnvRecord := list (string * V).

Definition object_keys (env : EnvRecord) : list string := map fst env.

Record ValidationResult := mkValidationResult {
  server : EnvRecord;
  client : EnvRecord
}.
End Records.

Arguments object_keys {V} env.
Arguments mkValidationResult {V} server client.
Arguments server {V} v.
Arguments client {V} v.

(** ** JS helpers *)

(** [x ?? d] on an optional field. *)
Definition nullish {A} (o : option A) (d : A) : A :=
  match o with Some x => x | None => d end.

(** [xs.includes(x)] for an array of strings. *)
Definition includes (xs : list string) (x : string) : bool :=
  existsb (String.eqb x) xs.

(** [s.startsWith(p)]. *)
Definition startsWith (s p : string) : bool := String.prefix p s.

(** [new Set(xs)] read back in insertion order: first occurrences kept. *)
Definition set_add (acc : list string) (x : string) : list string :=
  if includes acc x then acc else acc ++ [x].

Definition new_Set (xs : list string) : list string := fold_left set_add xs [].

(** [Array.prototype.sort] with the default comparator (code-unit order). *)
Fixpoint insert_sorted (x : string) (l : list string) : list string :=
  match l with
  | [] => [x]
  | y :: l' => if String.leb x y then x :: y :: l' else y :: insert_sorted x l'
  end.

Fixpoint sort (l : list string) : list string :=
  match l with
  | [] => []
  | x :: l' => insert_sorted x (sort l')
  end.

(** [keys.join(sep)]. *)
Definition join (sep : string) (xs : list string) : string := String.concat sep xs.

(** ** Prefix enforcement ([src/services/prefix-enforcement/service.ts]) *)

Definition resolveMeta (meta : EnvMeta) (overrides : PartialEnvMeta) : EnvMeta :=
  {| serverKeys := nullish (o_serverKeys overrides) (serverKeys meta);
     clientKeys := nullish (o_clientKeys overrides) (clientKeys meta);
     clientPrefix := nullish (o_clientPrefix overrides) (clientPrefix meta) |}.

(** [mergeMeta] of the env service has the same body. *)
Definition mergeMeta (base : EnvMeta) (override : PartialEnvMeta) : EnvMeta :=
  {| serverKeys := nullish (o_serverKeys override) (serverKeys base);
     clientKeys := nullish (o_clientKeys override) (clientKeys base);
     clientPrefix := nullish (o_clientPrefix override) (clientPrefix base) |}.

Definition uniqueSorted (keys : list string) : list string := sort (new_Set keys).

(** The body of the [for] loop: the keys the three [if]s add, in order. *)
Definition server_step (meta : EnvMeta) (violations : list string) (key : string)
  : list string :=
  let v1 := if includes (clientKeys meta) key then set_add violations key
            else violations in
  let v2 := if negb (includes (serverKeys meta) key) then set_add v1 key else v1 in
  if Nat.ltb 0 (String.length (clientPrefix meta)) && startsWith key (clientPrefix meta)
  then set_add v2 key else v2.

Definition serverViolations {V} (env : EnvRecord V) (meta : EnvMeta) : list string :=
  uniqueSorted (fold_left (server_step meta) (object_keys env) []).

Definition client_step (meta : EnvMeta) (violations : list string) (key : string)
  : list string :=
  let v1 := if negb (includes (clientKeys meta) key) then set_add violations key
            else violations in
  if Nat.ltb 0 (String.length (clientPrefix meta)) && negb (startsWith key (clientPrefix meta))
  then set_add v1 key else v1.

Definition clientViolations {V} (env : EnvRecord V) (meta : EnvMeta) : list string :=
  uniqueSorted (fold_left (client_step meta) (object_keys env) []).

Inductive Mode := ServerMode | ClientMode.

Definition buildMessage (mode : Mode) (keys : list string) : string :=
  match mode with
  | ServerMode => "Server mode forbids these keys: " ++ join ", " keys
  | ClientMode => "Client mode forbids these keys: " ++ join ", " keys
  end.

Record PrefixError := mkPrefixError {
  pe_mode : Mode;
  pe_keys : list string;
  pe_message : string
}.

Record PrefixEnforcementOptions := mkOptions {
  isServer : bool;
  metaOverride : PartialEnvMeta
}.

Record PrefixEnforcementConfig := mkConfig { config_meta : EnvMeta }.

(** [enforce] of [makePrefixEnforcement config]: [inl] is [Effect.fail],
    [inr] is [Effect.succeed]. *)
Definition enforce {V} (config : PrefixEnforcementConfig)
    (result : ValidationResult V) (options : PrefixEnforcementOptions)
  : PrefixError + ValidationResult V :=
  let meta := resolveMeta (config_meta config) (metaOverride options) in
  let mode := if isServer options then ServerMode else ClientMode in
  let env := if isServer options then server result else client result in
  let violations := if isServer options then serverViolations env meta
                    else clientViolations env meta in
  if Nat.ltb 0 (length violations) then
    inl {| pe_mode := mode; pe_keys := violations;
           pe_message := buildMessage mode violations |}
  else inr result.

(** ** JS strings

    A JS string is a sequence of UTF-16 code units; here it is held as its
    UTF-8 encoding (WTF-8 for a lone surrogate), the form in which it is
    read from the environment and printed.  [units] decodes the bytes into
    code units, [encode] is its inverse on code units; [.length],
    [.slice] and [.trim] act on the code units. *)
Section JSStrings.
Local Open Scope N_scope.

(** A continuation byte [10xxxxxx]. *)
Definition cont (c : ascii) : bool :=
  (128 <=? N_of_ascii c) && (N_of_ascii c <? 192).

(** The code units of the first encoded character of [String c s1], and
    the bytes after it.  A byte that does not start a well-formed sequence
    stands for itself. *)
Definition decode1 (c : ascii) (s1 : string) : list N * string :=
  let b0 := N_of_ascii c in
  if b0 <? 128 then ([b0], s1)
  else if b0 <? 224 then
    match s1 with
    | String c1 s2 =>
        let u := (b0 mod 32) * 64 + N_of_ascii c1 mod 64 in
        if (192 <=? b0) && cont c1 && (128 <=? u) then ([u], s2) else ([b0], s1)
    | EmptyString => ([b0], s1)
    end
  else if b0 <? 240 then
    match s1 with
    | String c1 (String c2 s3) =>
        let u := (b0 mod 16) * 4096 + (N_of_ascii c1 mod 64) * 64 + N_of_ascii c2 mod 64 in
        if cont c1 && cont c2 && (2048 <=? u) then ([u], s3) else ([b0], s1)
    | _ => ([b0], s1)
    end
  else if b0 <? 248 then
    match s1 with
    | String c1 (String c2 (String c3 s4)) =>
        let cp := (b0 mod 8) * 262144 + (N_of_ascii c1 mod 64) * 4096
                  + (N_of_ascii c2 mod 64) * 64 + N_of_ascii c3 mod 64 in
        if cont c1 && cont c2 && cont c3 && (65536 <=? cp) && (cp <? 1114112)
        then ([55296 + (cp - 65536) / 1024; 56320 + (cp - 65536) mod 1024], s4)
        else ([b0], s1)
    | _ => ([b0], s1)
    end
  else ([b0], s1).

Fixpoint units_fuel (fuel : nat) (s : string) : list N :=
  match fuel, s with
  | O, _ | _, EmptyString => []
  | S fuel', String c s1 => let '(us, rest) := decode1 c s1 in us ++ units_fuel fuel' rest
  end.

(** The UTF-16 code units of a string. *)
Definition units (s : string) : list N := units_fuel (String.length s) s.

Definition byte_of (n : N) : ascii := ascii_of_N n.

Definition enc3 (u : N) (rest : string) : string :=
  String (byte_of (224 + u / 4096)) (String (byte_of (128 + (u / 64) mod 64))
    (String (byte_of (128 + u mod 64)) rest)).

Definition enc4 (u v : N) (rest : string) : string :=
  let cp := 65536 + (u - 55296) * 1024 + (v - 56320) in
  String (byte_of (240 + cp / 262144)) (String (byte_of (128 + (cp / 4096) mod 64))
    (String (byte_of (128 + (cp / 64) mod 64)) (String (byte_of (128 + cp mod 64)) rest))).

(** The string of a sequence of code units: a surrogate pair is one
    four-byte character, a lone surrogate three bytes. *)
Fixpoint encode (us : list N) : string :=
  match us with
  | [] => EmptyString
  | u :: rest =>
      if u <? 128 then String (byte_of u) (encode rest)
      else if u <? 2048 then
        String (byte_of (192 + u / 64)) (String (byte_of (128 + u mod 64)) (encode rest))
      else if (55296 <=? u) && (u <? 56320) then
        match rest with
        | v :: rest' =>
            if (56320 <=? v) && (v <? 57344) then enc4 u v (encode rest')
            else enc3 u (encode rest)
        | [] => enc3 u EmptyString
        end
      else enc3 u (encode rest)
  end.

(** [s.length]. *)
Definition js_length (s : string) : nat := List.length (units s).

(** [s.slice(start, stop)] for [0 <= start <= stop]. *)
Definition slice (start stop : nat) (s : string) : string :=
  encode (firstn (stop - start)%nat (skipn start (units s))).

(** The white space and line terminators [String.prototype.trim] removes. *)
Definition is_ws (u : N) : bool :=
  existsb (N.eqb u) [9; 10; 11; 12; 13; 32; 160; 5760; 8232; 8233; 8239; 8287; 12288; 65279]
  || ((8192 <=? u) && (u <=? 8202)).

Fixpoint drop_ws (us : list N) : list N :=
  match us with
  | [] => []
  | u :: us' => if is_ws u then drop_ws us' else us
  end.

(** [s.trim()]. *)
Definition trim (s : string) : string := encode (rev (drop_ws (rev (drop_ws (units s))))).

End JSStrings.

(** ** Validation reporter ([src/env/validate.ts]) *)

Definition dq : ascii := "034"%char.
Definition nl : string := String "010"%char EmptyString.

Record ValidationIssue := mkIssue { key : string; message : string }.

(** [class ValidationError { missing; invalid; report }]. *)
Record ValidationError := mkValidationError {
  missing : list string;
  invalid : list ValidationIssue;
  report : string
}.

(** [s.padEnd(n)] with the default space filler. *)
Fixpoint spaces (n : nat) : string :=
  match n with O => EmptyString | S n' => String " "%char (spaces n') end.

Definition padEnd (s : string) (n : nat) : string := s ++ spaces (n - String.length s).

(** [message.length > 30 ? message.slice(0, 30) + '...' : message]. *)
Definition shortMsg (m : string) : string :=
  if Nat.ltb 30 (js_length m) then (slice 0 30 m ++ "...")%string else m.

Definition missing_row (k : string) : string :=
  (padEnd k 10 ++ " | missing   | required but not provided")%string.

Definition invalid_row (iss : ValidationIssue) : string :=
  (padEnd (key iss) 10 ++ " | invalid   | " ++ shortMsg (message iss))%string.

(** The [lines] array of [formatValidationReport]. *)
Definition report_lines (error : ValidationError) : list string :=
  ["Key       | Status    | Details"; "-----------|-----------|--------"] ++
  map missing_row (missing error) ++ map invalid_row (invalid error).

Definition formatValidationReport (error : ValidationError) : string :=
  join nl (report_lines error).

(** [s.split] on the newline character. *)
Fixpoint split_nl (s : string) : list string :=
  match s with
  | EmptyString => [EmptyString]
  | String c s' =>
      if Ascii.eqb c "010"%char then EmptyString :: split_nl s'
      else match split_nl s' with
           | [] => [String c EmptyString]
           | l :: ls => String c l :: ls
           end
  end.

(** [hay.includes(needle)]. *)
Fixpoint contains (hay needle : string) : bool :=
  String.prefix needle hay ||
  match hay with EmptyString => false | String _ hay' => contains hay' needle end.

(** The characters before the first double quote and what follows it. *)
Fixpoint quoted_body (s : string) : option (string * string) :=
  match s with
  | EmptyString => None
  | String c s' =>
      if Ascii.eqb c dq then Some (EmptyString, s')
      else match quoted_body s' with
           | Some (a, b) => Some (String c a, b)
           | None => None
           end
  end.

(** The key pattern of [validate] (an open bracket and a double quote, one or
    more characters other than a double quote, then a double quote and a
    close bracket) anchored at the start of [s]: its capture group. *)
Definition match_at (s : string) : option string :=
  match s with
  | String c1 (String c2 rest) =>
      if Ascii.eqb c1 "["%char && Ascii.eqb c2 dq then
        match quoted_body rest with
        | Some (String x k, String c3 _) =>
            if Ascii.eqb c3 "]"%char then Some (String x k) else None
        | _ => None
        end
      else None
  | _ => None
  end.

(** [line.match(...)] with that pattern: group 1 of the leftmost match. *)
Fixpoint match_key (s : string) : option string :=
  match match_at s with
  | Some k => Some k
  | None => match s with EmptyString => None | String _ s' => match_key s' end
  end.

(** JS truthiness of a string. *)
Definition truthy (s : string) : bool := negb (String.eqb s "").

(** State of the [for] loop over the error lines. *)
Record ScanState := mkScanState {
  currentKey : option string;
  errorDetails : list string
}.

Definition scan_line (st : ScanState) (line : string) : ScanState :=
  match match_key line with
  | Some k => mkScanState (Some k) []
  | None =>
      match currentKey st with
      | Some k =>
          if truthy k && truthy (trim line)
          then mkScanState (Some k) (errorDetails st ++ [trim line])
          else st
      | None => st
      end
  end.

Definition scan (errorLines : list string) : ScanState :=
  fold_left scan_line errorLines (mkScanState None []).

(** [a || b] where [a] may be [undefined]. *)
Definition or_else (a : option string) (b : string) : string :=
  match a with Some x => if truthy x then x else b | None => b end.

Definition meaningfulLine (errorDetails : list string) : string :=
  or_else (find (fun d => contains d "Expected" || contains d "actual" ||
                          contains d "failure") errorDetails)
    (or_else (last (map Some errorDetails) None) "validation failed").

(** The categorisation after the loop: the [missing] and [invalid] arrays. *)
Definition categorize (st : ScanState) : list string * list ValidationIssue :=
  match currentKey st with
  | Some k =>
      if truthy k then
        let detailsText := join " " (errorDetails st) in
        if contains detailsText "is missing" || contains detailsText "is required"
        then ([k], [])
        else ([], [mkIssue k (meaningfulLine (errorDetails st))])
      else ([], [])
  | None => ([], [])
  end.

Definition extract (errors : string) : list string * list ValidationIssue :=
  categorize (scan (split_nl errors)).

Inductive Exit := Success | Fail (e : ValidationError) | Die (e : ValidationError).

Definition exit_error (x : Exit) : option ValidationError :=
  match x with Success => None | Fail e | Die e => Some e end.

(** [validate schema source opts].  [S.decodeUnknown(schema)(source)] and
    [ParseResult.TreeFormatter.formatErrorSync] are library code: [decoded]
    is [None] when decoding succeeds and [Some errors] with the formatted
    parse error otherwise. *)
Definition validate (decoded : option string) (failInProd : option bool) : Exit :=
  let shouldFail := nullish failInProd false in
  match decoded with
  | None => Success
  | Some errors =>
      let '(missing, invalid) := extract errors in
      let report := formatValidationReport (mkValidationError missing invalid errors) in
      let error := mkValidationError missing invalid report in
      if shouldFail then Die error else Fail error
  end.

(** ** Issue collection of the validation service
    ([src/services/validation/service.ts]) *)

(** The cases of [ConfigError.ConfigError] that [collectIssues] inspects. *)
Inductive ConfigError :=
  | And (left right : ConfigError)
  | Or (left right : ConfigError)
  | MissingData (path : list string) (msg : string)
  | InvalidData (path : list string) (msg : string)
  | SourceUnavailable (path : list string) (msg : string)
  | Unsupported (path : list string) (msg : string).

Definition ROOT_PATH : string := "<root>".

Definition formatPath (path : list string) : string :=
  match path with [] => ROOT_PATH | _ => join "." path end.

(** [visit]: the issues pushed, in push order. *)
Fixpoint visit (current : ConfigError) : list ValidationIssue :=
  match current with
  | And l r => visit l ++ visit r
  | Or l r => visit l ++ visit r
  | MissingData p m | InvalidData p m => [mkIssue (formatPath p) m]
  | SourceUnavailable p m | Unsupported p m => [mkIssue (formatPath p) m]
  end.

Definition collectIssues (error : ConfigError) : list ValidationIssue := visit error.

(** The leaves of a failure tree, left to right. *)
Fixpoint leaves (e : ConfigError) : list (list string * string) :=
  match e with
  | And l r | Or l r => leaves l ++ leaves r
  | MissingData p m | InvalidData p m | SourceUnavailable p m | Unsupported p m =>
      [(p, m)]
  end.

(** A [RawEnv] as the list of its own entries; an absent value is [None]. *)
Definition RawEnv := list (string * option string).

(** [raw[key]]: [undefined] when the key is absent or its value is. *)
Fixpoint obj_get (raw : RawEnv) (k : string) : option string :=
  match raw with
  | [] => None
  | (k', v) :: r => if String.eqb k k' then v else obj_get r k
  end.

(** A [Map<string, string>] as its entries in insertion order. *)
Definition StrMap := list (string * string).

Fixpoint map_get (m : StrMap) (k : string) : option string :=
  match m with
  | [] => None
  | (k', v) :: r => if String.eqb k k' then Some v else map_get r k
  end.

(** [m.set(k, v)]: an existing key keeps its position. *)
Fixpoint map_set (m : StrMap) (k v : string) : StrMap :=
  match m with
  | [] => [(k, v)]
  | (k', w) :: r => if String.eqb k k' then (k', v) :: r else (k', w) :: map_set r k v
  end.

(** [new Map(entries)]. *)
Definition new_Map (entries : list (string * string)) : StrMap :=
  fold_left (fun m '(k, v) => map_set m k v) entries [].

(** [toMap]: the entries whose value is not [undefined]. *)
Definition toMap (raw : RawEnv) : StrMap :=
  let entries := fold_left (fun acc '(k, v) =>
                   match v with Some s => acc ++ [(k, s)] | None => acc end) raw [] in
  new_Map entries.

(** ** The [Env] accessors of [makeEnv] ([src/env/service.ts]) *)

Record EnvError := mkEnvError { env_error_message : string }.




Definition not_found (key : string) : EnvError :=
  mkEnvError ("Environment variable " ++ key ++ " not found").


(** [all()]: the entries whose value is not [undefined]. *)
Definition all (raw : RawEnv) : list (string * string) :=
  fold_right (fun '(k, v) acc =>
                match v with Some s => (k, s) :: acc | None => acc end) [] raw.

(** [{ ...raw, [key]: value }]. *)
Fixpoint obj_set (raw : RawEnv) (k v : string) : RawEnv :=
  match raw with
  | [] => [(k, Some v)]
  | (k', w) :: r =>
      if String.eqb k k' then (k', Some v) :: r else (k', w) :: obj_set r k v
  end.

(** [getNumber] and [getJson] call the JS primitives [Number] (with the
    [isNaN]/[isFinite] test) and [JSON.parse]; they are parameters here:
    [to_finite s] is the finite number [Number(s)] denotes, if any, and
    [json_parse s] the parsed value, if [JSON.parse(s)] does not throw. *)
Section Accessors.
Variables (Num Json : Type) (to_finite : string -> option Num)
          (json_parse : string -> option Json).

Definition getNumber (raw : RawEnv) (key : string) : EnvError + Num :=
  match obj_get raw key with
  | None => inl (not_found key)
  | Some value =>
      let trimmed := trim value in
      match to_finite trimmed with
      | Some num => inr num
      | None => inl (mkEnvError ("Invalid number for " ++ key ++ ": " ++
                                 slice 0 60 trimmed ++
                                 (if Nat.ltb 60 (js_length trimmed) then "..." else "")))
      end
  end.

Definition getJson (raw : RawEnv) (key : string) : EnvError + Json :=
  match obj_get raw key with
  | None => inl (not_found key)
  | Some value =>
      match json_parse value with
      | Some j => inr j
      | None =>
          let snippet := if Nat.ltb 60 (js_length value)
                         then (slice 0 60 value ++ "...")%string else value in
          inl (mkEnvError ("Invalid JSON for " ++ key ++ ": " ++ snippet))
      end
  end.
End Accessors.

(** [x === s] where [x] may be [undefined]. *)
Definition option_eqb (x : option string) (s : string) : bool :=
  match x with Some y => String.eqb y s | None => false end.

(** [withOverride(key, value)(fa)]: [fa] reads its [Env], here the raw
    record [makeEnv(parsed, newRaw)] is built on; [nodeEnv] is
    [process.env.NODE_ENV]. *)
Definition withOverride {A} (nodeEnv : option string) (raw : RawEnv) (key value : string)
    (fa : RawEnv -> EnvError + A) : EnvError + A :=
  if option_eqb nodeEnv "production"
  then inl (mkEnvError "withOverride is not allowed in production")
  else fa (obj_set raw key value).

(** [ValidationError.toString()]. *)
Definition toString (e : ValidationError) : string :=
  ("Environment validation failed:" ++ nl ++ report e)%string.

(** ** Environment loading ([src/services/env-loading/helpers.ts]) *)

Record EnvLoadingError := mkEnvLoadingError { load_error_message : string }.

(** What [source.load()] does: throw, or return an effect that fails or
    succeeds. *)
Inductive SourceBehaviour (E : Type) :=
  | Throws
  | LoadFails (error : E)
  | Loads (raw : RawEnv).
Arguments Throws {E}.
Arguments LoadFails {E} error.
Arguments Loads {E} raw.

Record EnvSource (E : Type) := mkEnvSource { source_name : string;
                                            source_load : SourceBehaviour E }.
Arguments mkEnvSource {E} source_name source_load.
Arguments source_name {E} _.
Arguments source_load {E} _.

Definition loadFromSource {E} (source : EnvSource E) : EnvLoadingError + RawEnv :=
  match source_load source with
  | Throws => inl (mkEnvLoadingError ("Source " ++ source_name source ++
                                      " threw while creating load effect"))
  | LoadFails _ => inl (mkEnvLoadingError ("Failed to load environment from " ++
                                           source_name source))
  | Loads raw => inr raw
  end.

(** [chooseSource]. *)
Definition chooseSource {E} (defaultSource optionSource : option (EnvSource E))
    (processEnvSource : EnvSource E) : EnvSource E :=
  nullish optionSource (nullish defaultSource processEnvSource).

(** ** The env service pipeline ([src/services/env/service.ts]) *)

(** A compiled schema: its [Config] program (abstract) and its meta. *)
Record CompiledEnv (P : Type) := mkCompiled { program : P; compiled_meta : EnvMeta }.
Arguments mkCompiled {P} program compiled_meta.
Arguments program {P} _.
Arguments compiled_meta {P} _.

Record EnvServiceConfig (P : Type) := mkServiceConfig {
  config_compiled : CompiledEnv P;
  config_metaOverride : option PartialEnvMeta;
  config_isServer : option bool
}.
Arguments mkServiceConfig {P} config_compiled config_metaOverride config_isServer.
Arguments config_compiled {P} _.
Arguments config_metaOverride {P} _.
Arguments config_isServer {P} _.

Record EnvServiceOptions (P : Type) := mkServiceOptions {
  options_compiled : option (CompiledEnv P);
  options_metaOverride : option PartialEnvMeta;
  options_isServer : option bool
}.
Arguments mkServiceOptions {P} options_compiled options_metaOverride options_isServer.
Arguments options_compiled {P} _.
Arguments options_metaOverride {P} _.
Arguments options_isServer {P} _.

Record EnvServiceResult (V : Type) := mkServiceResult {
  res_mode : Mode;
  res_raw : RawEnv;
  res_validation : ValidationResult V;
  res_meta : EnvMeta;
  res_env : EnvRecord V
}.
Arguments mkServiceResult {V} res_mode res_raw res_validation res_meta res_env.
Arguments res_mode {V} _.
Arguments res_raw {V} _.
Arguments res_validation {V} _.
Arguments res_meta {V} _.
Arguments res_env {V} _.

Inductive LoadFailure (LE VE : Type) :=
  | LoadingFailed (e : LE)
  | ValidationFailed (e : VE)
  | PrefixFailed (e : PrefixError).
Arguments LoadingFailed {LE VE} e.
Arguments ValidationFailed {LE VE} e.
Arguments PrefixFailed {LE VE} e.

(** [override?.field ?? base.field] when [override] is [undefined]. *)
Definition opt_partial (o : option PartialEnvMeta) : PartialEnvMeta :=
  match o with Some p => p | None => noOverride end.

(** [load(options)] of [makeEnvService(config)]: [loaded] is the outcome of
    the loading service and [validateWith] the validation service (its
    [ConfigProvider] decoding is library code). *)
Definition load {P V LE VE} (validateWith : CompiledEnv P -> RawEnv -> VE + ValidationResult V)
    (config : EnvServiceConfig P) (loaded : LE + RawEnv) (options : EnvServiceOptions P)
  : LoadFailure LE VE + EnvServiceResult V :=
  match loaded with
  | inl le => inl (LoadingFailed le)
  | inr raw =>
      let compiled := match options_compiled options with
                      | Some c => c | None => config_compiled config end in
      match validateWith compiled raw with
      | inl ve => inl (ValidationFailed ve)
      | inr validation =>
          let baseMeta := match config_metaOverride config with
                          | Some o => mergeMeta (compiled_meta (config_compiled config)) o
                          | None => compiled_meta (config_compiled config)
                          end in
          let meta := mergeMeta baseMeta (opt_partial (options_metaOverride options)) in
          let isServer := nullish (options_isServer options)
                            (nullish (config_isServer config) true) in
          match enforce (mkConfig meta) validation
                  (mkOptions isServer (opt_partial (options_metaOverride options))) with
          | inl pe => inl (PrefixFailed pe)
          | inr enforced =>
              if isServer then inr (mkServiceResult ServerMode raw enforced meta (server enforced))
              else inr (mkServiceResult ClientMode raw enforced meta (client enforced))
          end
      end
  end.

(** A string without a line feed: [formatValidationReport] joins its rows
    with one. *)
Fixpoint no_nl (s : string) : bool :=
  match s with
  | EmptyString => true
  | String c s' => negb (Ascii.eqb c "010"%char) && no_nl s'
  end.

(** ** Lemmas on the JS helpers *)

Lemma includes_In (xs : list string) (x : string) :
  includes xs x = true <-> In x xs.
Proof.
  unfold includes. rewrite existsb_exists. split.
  - intros [y [Hy Heq]]. apply String.eqb_eq in Heq. subst. exact Hy.
  - intros H. exists x. split; [exact H | apply String.eqb_refl].
Qed.

Lemma includes_false_not_In (xs : list string) (x : string) :
  includes xs x = false <-> ~ In x xs.
Proof.
  rewrite <- includes_In. destruct (includes xs x); split; congruence.
Qed.

Lemma set_add_In (acc : list string) (x y : string) :
  In y (set_add acc x) <-> In y acc \/ y = x.
Proof.
  unfold set_add. case_eq (includes acc x); intros Hx.
  - apply includes_In in Hx. split; [tauto|]. intros [H|H]; [exact H|subst; exact Hx].
  - rewrite in_app_iff. simpl. split; intros [H|H]; try tauto.
    destruct H as [H|[]]; subst; tauto.
    subst; tauto.
Qed.

Lemma set_add_NoDup (acc : list string) (x : string) :
  NoDup acc -> NoDup (set_add acc x).
Proof.
  unfold set_add. case_eq (includes acc x); intros Hx Hnd; [exact Hnd|].
  apply includes_false_not_In in Hx.
  apply NoDup_app; [exact Hnd | constructor; [intros []|constructor] |].
  intros y Hy [Hyx|[]]. subst. contradiction.
Qed.

Lemma new_Set_fold_In (xs acc : list string) (y : string) :
  In y (fold_left set_add xs acc) <-> In y acc \/ In y xs.
Proof.
  revert acc. induction xs as [|x xs IH]; intros acc; simpl.
  - tauto.
  - rewrite IH, set_add_In. intuition.
Qed.

Lemma new_Set_fold_NoDup (xs acc : list string) :
  NoDup acc -> NoDup (fold_left set_add xs acc).
Proof.
  revert acc. induction xs as [|x xs IH]; intros acc H; simpl; [exact H|].
  apply IH, set_add_NoDup, H.
Qed.

Lemma insert_sorted_perm (x : string) (l : list string) :
  Permutation (insert_sorted x l) (x :: l).
Proof.
  induction l as [|y l IH]; simpl; [reflexivity|].
  destruct (String.leb x y); [reflexivity|].
  rewrite IH. apply perm_swap.
Qed.

Lemma sort_perm (l : list string) : Permutation (sort l) l.
Proof.
  induction l as [|x l IH]; simpl; [reflexivity|].
  rewrite insert_sorted_perm, IH. reflexivity.
Qed.

Definition str_le (a b : string) : Prop := String.leb a b = true.

Lemma insert_sorted_sorted (x : string) (l : list string) :
  Sorted str_le l -> Sorted str_le (insert_sorted x l).
Proof.
  induction l as [|y l IH]; intros Hs; simpl.
  - repeat constructor.
  - case_eq (String.leb x y); intros Hxy.
    + constructor; [exact Hs | constructor; exact Hxy].
    + assert (Hyx : str_le y x).
      { destruct (String.leb_total x y) as [H|H]; [congruence|exact H]. }
      apply Sorted_inv in Hs as [Hl Hhd].
      constructor; [apply IH, Hl|].
      destruct l as [|z l']; simpl.
      * constructor; exact Hyx.
      * destruct (String.leb x z); constructor; [exact Hyx|].
        inversion Hhd; assumption.
Qed.

Lemma sort_sorted (l : list string) : Sorted str_le (sort l).
Proof.
  induction l as [|x l IH]; simpl; [constructor|].
  apply insert_sorted_sorted, IH.
Qed.

Lemma uniqueSorted_In (keys : list string) (y : string) :
  In y (uniqueSorted keys) <-> In y keys.
Proof.
  unfold uniqueSorted, new_Set. split; intros H.
  - apply (Permutation_in _ (sort_perm _)) in H.
    apply new_Set_fold_In in H. destruct H as [[]|H]; exact H.
  - apply (Permutation_in _ (Permutation_sym (sort_perm _))).
    apply new_Set_fold_In. right. exact H.
Qed.

Lemma uniqueSorted_NoDup (keys : list string) : NoDup (uniqueSorted keys).
Proof.
  unfold uniqueSorted, new_Set.
  apply (Permutation_NoDup (Permutation_sym (sort_perm _))).
  apply new_Set_fold_NoDup. constructor.
Qed.

Lemma uniqueSorted_sorted (keys : list string) : Sorted str_le (uniqueSorted keys).
Proof. apply sort_sorted. Qed.

(** A loop body that adds the current key exactly when it is bad. *)
Lemma fold_step_In (step : list string -> string -> list string)
    (bad : string -> Prop)
    (Hstep : forall acc key y, In y (step acc key) <-> In y acc \/ (y = key /\ bad key))
    (keys acc : list string) (y : string) :
  In y (fold_left step keys acc) <-> In y acc \/ (In y keys /\ bad y).
Proof.
  revert acc. induction keys as [|k keys IH]; intros acc; simpl.
  - tauto.
  - rewrite IH, Hstep. split.
    + intros [[H|[-> Hb]]|[H Hb]]; auto.
    + intros [H|[[<-|H] Hb]]; auto.
Qed.

(** The three server-mode conditions of the loop body. *)
Definition server_bad (meta : EnvMeta) (key : string) : Prop :=
  In key (clientKeys meta) \/ ~ In key (serverKeys meta) \/
  (clientPrefix meta <> "" /\ startsWith key (clientPrefix meta) = true).

Definition client_bad (meta : EnvMeta) (key : string) : Prop :=
  ~ In key (clientKeys meta) \/
  (clientPrefix meta <> "" /\ startsWith key (clientPrefix meta) = false).

Lemma length_pos_nonempty (s : string) :
  Nat.ltb 0 (String.length s) = true <-> s <> "".
Proof.
  destruct s; simpl; split; intros H; try congruence; try discriminate.
  reflexivity.
Qed.

Lemma server_step_In (meta : EnvMeta) (acc : list string) (key y : string) :
  In y (server_step meta acc key) <-> In y acc \/ (y = key /\ server_bad meta key).
Proof.
  unfold server_step, server_bad.
  pose proof (length_pos_nonempty (clientPrefix meta)) as Hlen.
  case_eq (includes (clientKeys meta) key); intros Hc;
  case_eq (includes (serverKeys meta) key); intros Hs;
  case_eq (Nat.ltb 0 (String.length (clientPrefix meta))); intros Hp;
  case_eq (startsWith key (clientPrefix meta)); intros Hst; simpl;
  rewrite ?set_add_In;
  rewrite ?includes_In in Hc; rewrite ?includes_false_not_In in Hc;
  rewrite ?includes_In in Hs; rewrite ?includes_false_not_In in Hs;
  rewrite Hp in Hlen; intuition congruence.
Qed.

Lemma client_step_In (meta : EnvMeta) (acc : list string) (key y : string) :
  In y (client_step meta acc key) <-> In y acc \/ (y = key /\ client_bad meta key).
Proof.
  unfold client_step, client_bad.
  pose proof (length_pos_nonempty (clientPrefix meta)) as Hlen.
  case_eq (includes (clientKeys meta) key); intros Hc;
  case_eq (Nat.ltb 0 (String.length (clientPrefix meta))); intros Hp;
  case_eq (startsWith key (clientPrefix meta)); intros Hst; simpl;
  rewrite ?set_add_In;
  rewrite ?includes_In in Hc; rewrite ?includes_false_not_In in Hc;
  rewrite Hp in Hlen; intuition congruence.
Qed.

Lemma serverViolations_In {V} (env : EnvRecord V) (meta : EnvMeta) (k : string) :
  In k (serverViolations env meta) <-> In k (object_keys env) /\ server_bad meta k.
Proof.
  unfold serverViolations. rewrite uniqueSorted_In.
  rewrite (fold_step_In _ (server_bad meta) (server_step_In meta)). simpl. tauto.
Qed.

Lemma clientViolations_In {V} (env : EnvRecord V) (meta : EnvMeta) (k : string) :
  In k (clientViolations env meta) <-> In k (object_keys env) /\ client_bad meta k.
Proof.
  unfold clientViolations. rewrite uniqueSorted_In.
  rewrite (fold_step_In _ (client_bad meta) (client_step_In meta)). simpl. tauto.
Qed.

Lemma enforce_branch {V : Type} (m : Mode) (hd : string) (vs : list string)
    (r : ValidationResult V) :
  NoDup vs -> Sorted str_le vs ->
  hd = match m with ServerMode => "Server" | ClientMode => "Client" end ->
  match (if Nat.ltb 0 (length vs)
         then inl {| pe_mode := m; pe_keys := vs; pe_message := buildMessage m vs |}
         else inr r) with
  | inl e =>
      vs <> [] /\ pe_mode e = m /\ pe_keys e = vs /\ NoDup (pe_keys e) /\
      Sorted str_le (pe_keys e) /\
      pe_message e = (hd ++ " mode forbids these keys: " ++ join ", " (pe_keys e))%string
  | inr r' => vs = [] /\ r' = r
  end.
Proof.
  intros Hnd Hs ->. destruct vs as [|v vs]; simpl.
  - auto.
  - repeat split; try discriminate; try assumption. destruct m; reflexivity.
Qed.

(** ** Claims on prefix enforcement *)

Definition leak_meta : EnvMeta :=
  {| serverKeys := ["A"]; clientKeys := ["PUBLIC_B"]; clientPrefix := "PUBLIC_" |}.

Definition leak_result : ValidationResult nat :=
  mkValidationResult [("A", 1); ("PUBLIC_B", 2)] [].

Definition server_opts : PrefixEnforcementOptions := mkOptions true noOverride.
Definition client_opts : PrefixEnforcementOptions := mkOptions false noOverride.

(** C2: in server mode a key of the server subset is reported exactly when
    it is a declared client key, or not a declared server key, or the client
    prefix is non-empty and the key starts with it; on the leak example,
    server-mode [enforce] fails with the keys [["PUBLIC_B"]]. *)
Theorem server_violation_rule :
  (forall (V : Type) (env : EnvRecord V) (meta : EnvMeta) (k : string),
     In k (serverViolations env meta) <->
     In k (object_keys env) /\
     (In k (clientKeys meta) \/ ~ In k (serverKeys meta) \/
      (clientPrefix meta <> "" /\ startsWith k (clientPrefix meta) = true))) /\
  enforce (mkConfig leak_meta) leak_result server_opts =
    inl {| pe_mode := ServerMode; pe_keys := ["PUBLIC_B"];
           pe_message := "Server mode forbids these keys: PUBLIC_B" |}.
Proof.
  split.
  - intros V env meta k. apply serverViolations_In.
  - reflexivity.
Qed.

(** C3: in client mode a key of the client subset is reported exactly when
    it is not a declared client key, or the client prefix is non-empty and
    the key does not start with it; with an empty client prefix no prefix
    condition remains in either mode. *)
Theorem client_violation_rule :
  (forall (V : Type) (env : EnvRecord V) (meta : EnvMeta) (k : string),
     In k (clientViolations env meta) <->
     In k (object_keys env) /\
     (~ In k (clientKeys meta) \/
      (clientPrefix meta <> "" /\ startsWith k (clientPrefix meta) = false))) /\
  (forall (V : Type) (env : EnvRecord V) (sk ck : list string) (k : string),
     (In k (serverViolations env (mkEnvMeta sk ck "")) <->
      In k (object_keys env) /\ (In k ck \/ ~ In k sk)) /\
     (In k (clientViolations env (mkEnvMeta sk ck "")) <->
      In k (object_keys env) /\ ~ In k ck)).
Proof.
  split.
  - intros V env meta k. apply clientViolations_In.
  - intros V env sk ck k. rewrite serverViolations_In, clientViolations_In.
    unfold server_bad, client_bad; simpl. intuition congruence.
Qed.

(** C4: [enforce] fails exactly when the violation list of the requested
    mode is non-empty, with that mode, the violating keys deduplicated and
    sorted, and the message ["<Mode> mode forbids these keys: k1, k2, ..."];
    otherwise it returns its input unchanged.  An empty environment passes
    in both modes. *)
Theorem enforce_outcome :
  (forall (V : Type) (config : PrefixEnforcementConfig) (r : ValidationResult V)
          (opts : PrefixEnforcementOptions),
     let meta := resolveMeta (config_meta config) (metaOverride opts) in
     let viols := if isServer opts then serverViolations (server r) meta
                  else clientViolations (client r) meta in
     match enforce config r opts with
     | inl e =>
         viols <> [] /\
         pe_mode e = (if isServer opts then ServerMode else ClientMode) /\
         pe_keys e = viols /\ NoDup (pe_keys e) /\ Sorted str_le (pe_keys e) /\
         pe_message e =
           ((if isServer opts then "Server" else "Client") ++
            " mode forbids these keys: " ++ join ", " (pe_keys e))%string
     | inr r' => viols = [] /\ r' = r
     end) /\
  (forall (V : Type) (config : PrefixEnforcementConfig) (opts : PrefixEnforcementOptions),
     enforce config (mkValidationResult (V:=V) [] []) opts =
       inr (mkValidationResult [] [])).
Proof.
  split.
  - intros V config r opts. cbv zeta. unfold enforce.
    destruct (isServer opts).
    + apply enforce_branch with (m := ServerMode);
        [apply uniqueSorted_NoDup | apply uniqueSorted_sorted | reflexivity].
    + apply enforce_branch with (m := ClientMode);
        [apply uniqueSorted_NoDup | apply uniqueSorted_sorted | reflexivity].
  - intros V config opts. unfold enforce.
    destruct (isServer opts); reflexivity.
Qed.

(** C6: the effective meta takes each field from the override when present
    and from the base otherwise; an override of the client prefix alone keeps
    the base server and client keys.  [mergeMeta] behaves the same way. *)
Theorem resolveMeta_fieldwise :
  (forall (meta : EnvMeta) (o : PartialEnvMeta),
     serverKeys (resolveMeta meta o) =
       match o_serverKeys o with Some ks => ks | None => serverKeys meta end /\
     clientKeys (resolveMeta meta o) =
       match o_clientKeys o with Some ks => ks | None => clientKeys meta end /\
     clientPrefix (resolveMeta meta o) =
       match o_clientPrefix o with Some p => p | None => clientPrefix meta end) /\
  (forall (meta : EnvMeta) (p : string),
     resolveMeta meta (mkPartialEnvMeta None None (Some p)) =
       mkEnvMeta (serverKeys meta) (clientKeys meta) p /\
     mergeMeta meta (mkPartialEnvMeta None None (Some p)) =
       mkEnvMeta (serverKeys meta) (clientKeys meta) p) /\
  (forall (meta : EnvMeta) (o : PartialEnvMeta), mergeMeta meta o = resolveMeta meta o).
Proof.
  split; [|split].
  - intros meta o. unfold resolveMeta, nullish; simpl. auto.
  - intros meta p. split; reflexivity.
  - intros meta o. reflexivity.
Qed.

(** C7: [enforce] is idempotent on success: when it returns [r'], running it
    again on [r'] with the same options returns [r'] again. *)
Theorem enforce_idempotent {V : Type} (config : PrefixEnforcementConfig)
    (r r' : ValidationResult V) (opts : PrefixEnforcementOptions)
    (Hok : enforce config r opts = inr r') :
  enforce config r' opts = inr r'.
Proof.
  unfold enforce in *.
  destruct (Nat.ltb 0 _) eqn:Hv; [discriminate|].
  injection Hok as <-. rewrite Hv. reflexivity.
Qed.

(** C10: server-mode [enforce] only reads the server subset and client-mode
    [enforce] only the client subset: two results that agree on the selected
    subset fail with the same error or both pass. *)
Theorem enforce_reads_selected_subset {V : Type} (config : PrefixEnforcementConfig)
    (r1 r2 : ValidationResult V) (opts : PrefixEnforcementOptions)
    (Hsame : (if isServer opts then server r1 else client r1) =
             (if isServer opts then server r2 else client r2)) :
  (forall e, enforce config r1 opts = inl e <-> enforce config r2 opts = inl e) /\
  (enforce config r1 opts = inr r1 <-> enforce config r2 opts = inr r2).
Proof.
  unfold enforce.
  destruct (isServer opts); rewrite Hsame;
    destruct (Nat.ltb 0 _); split; try split; intros H; try discriminate; auto.
Qed.

(** Witnesses. *)
Lemma enforce_idempotent_witness :
  enforce (mkConfig leak_meta) (mkValidationResult [("A", 1)] []) server_opts =
    inr (mkValidationResult [("A", 1)] []) /\
  enforce (mkConfig leak_meta) (mkValidationResult [("A", 1)] []) server_opts =
    inr (mkValidationResult [("A", 1)] []).
Proof.
  split; [reflexivity|].
  apply (enforce_idempotent (mkConfig leak_meta)
           (mkValidationResult [("A", 1)] []) _ server_opts).
  reflexivity.
Defined.

Lemma enforce_reads_selected_subset_witness :
  server leak_result = server (mkValidationResult [("A", 1); ("PUBLIC_B", 2)] [("X", 3)]) /\
  (enforce (mkConfig leak_meta) leak_result server_opts =
     enforce (mkConfig leak_meta)
       (mkValidationResult [("A", 1); ("PUBLIC_B", 2)] [("X", 3)]) server_opts).
Proof.
  split; [reflexivity|].
  destruct (enforce_reads_selected_subset (mkConfig leak_meta) leak_result
              (mkValidationResult [("A", 1); ("PUBLIC_B", 2)] [("X", 3)])
              server_opts eq_refl) as [Hfail _].
  set (e := {| pe_mode := ServerMode; pe_keys := ["PUBLIC_B"];
               pe_message := "Server mode forbids these keys: PUBLIC_B" |}).
  assert (H1 : enforce (mkConfig leak_meta) leak_result server_opts = inl e)
    by reflexivity.
  rewrite H1. symmetry. apply Hfail. exact H1.
Defined.

(** ** Claims on the validation reporter *)

Lemma validate_error_shape (errors : string) (failInProd : option bool) :
  exit_error (validate (Some errors) failInProd) =
    Some (mkValidationError (fst (extract errors)) (snd (extract errors))
            (formatValidationReport
               (mkValidationError (fst (extract errors)) (snd (extract errors)) errors))).
Proof.
  unfold validate. destruct (extract errors) as [m i]. simpl.
  destruct (nullish failInProd false); reflexivity.
Qed.

Lemma categorize_cases (st : ScanState) :
  categorize st = ([], []) \/
  (exists k, categorize st = ([k], [])) \/
  (exists iss, categorize st = ([], [iss])).
Proof.
  unfold categorize. destruct (currentKey st) as [k|]; [|auto].
  destruct (truthy k); [|auto].
  destruct (_ || _); eauto.
Qed.

Lemma extract_at_most_one (errors : string) :
  length (fst (extract errors)) + length (snd (extract errors)) <= 1.
Proof.
  unfold extract.
  destruct (categorize_cases (scan (split_nl errors))) as [H|[[k H]|[iss H]]];
    rewrite H; simpl; lia.
Qed.

(** A formatted key reference of the parse-error tree. *)
Definition key_ref (k : string) : string := ("[" ++ String dq (k ++ String dq "]"))%string.

(** The formatted parse error of the example schema (required [NODE_ENV],
    [PORT], [API_KEY]) on the source with only [NODE_ENV]: decoding stops at
    the first missing property. *)
Definition missing_port_api_key_first : string :=
  join nl ["{ readonly NODE_ENV: string; readonly PORT: string; readonly API_KEY: string }";
           "└─ " ++ key_ref "PORT";
           "   └─ is missing"]%string.

(** The same failure with every issue listed. *)
Definition missing_port_api_key_all : string :=
  join nl ["{ readonly NODE_ENV: string; readonly PORT: string; readonly API_KEY: string }";
           "├─ " ++ key_ref "PORT";
           "│  └─ is missing";
           "└─ " ++ key_ref "API_KEY";
           "   └─ is missing"]%string.

(** C1 (defect): whatever the formatted parse error, [validate] reports at
    most one key in [missing] and [invalid] together, so an input missing
    [PORT] and [API_KEY] yields a [missing] list with a single key. *)
Theorem validate_reports_one_key :
  (forall (errors : string) (failInProd : option bool),
     match exit_error (validate (Some errors) failInProd) with
     | Some e => length (missing e) + length (invalid e) <= 1
     | None => False
     end) /\
  option_map missing (exit_error (validate (Some missing_port_api_key_first) None)) =
    Some ["PORT"] /\
  option_map missing (exit_error (validate (Some missing_port_api_key_all) None)) =
    Some ["API_KEY"].
Proof.
  split; [|split; reflexivity].
  intros errors failInProd. rewrite validate_error_shape. apply extract_at_most_one.
Qed.

(** C5: in every [ValidationError] of [validate], [missing] and the keys of
    [invalid] have no duplicates and no key is in both. *)
Theorem validate_classification_unique :
  forall (decoded : option string) (failInProd : option bool),
    match exit_error (validate decoded failInProd) with
    | Some e =>
        NoDup (missing e) /\ NoDup (map key (invalid e)) /\
        (forall k, In k (missing e) -> ~ In k (map key (invalid e)))
    | None => True
    end.
Proof.
  intros [errors|] failInProd; [|exact I].
  rewrite validate_error_shape. simpl. unfold extract.
  destruct (categorize_cases (scan (split_nl errors))) as [H|[[k H]|[iss H]]];
    rewrite H; simpl; repeat split; try (repeat constructor; simpl; tauto);
    intros; tauto.
Qed.

Lemma string_length_append (a b : string) :
  String.length (a ++ b) = String.length a + String.length b.
Proof. induction a as [|c a IH]; simpl; [reflexivity | rewrite IH; reflexivity]. Qed.

Lemma spaces_length (n : nat) : String.length (spaces n) = n.
Proof. induction n as [|n IH]; simpl; [reflexivity | rewrite IH; reflexivity]. Qed.

Section JSStringFacts.
Local Open Scope N_scope.

Ltac narith := zify; Z.to_euclidean_division_equations; lia.

Ltac tests_lia :=
  repeat match goal with
  | |- context [N.ltb ?a ?b] => destruct (N.ltb_spec a b); try lia
  | |- context [N.leb ?a ?b] => destruct (N.leb_spec a b); try lia
  end.

Lemma N_byte (n : N) : n < 256 -> N_of_ascii (byte_of n) = n.
Proof. apply N_ascii_embedding. Qed.

Lemma cont_byte (n : N) : 128 <= n < 192 -> cont (byte_of n) = true.
Proof.
  intros H. unfold cont. rewrite N_byte by lia.
  apply andb_true_intro; split; [apply N.leb_le | apply N.ltb_lt]; lia.
Qed.

Lemma add_mod_small (q k m : N) : k mod m = 0 -> q < m -> (k + q) mod m = q.
Proof.
  intros Hk Hq. rewrite N.Div0.add_mod, Hk, N.add_0_l, N.Div0.mod_mod.
  apply N.mod_small, Hq.
Qed.

Lemma digits (x : N) :
  x = (x / 262144) * 262144 + ((x / 4096) mod 64) * 4096 + ((x / 64) mod 64) * 64 + x mod 64
  /\ x = (x / 4096) * 4096 + ((x / 64) mod 64) * 64 + x mod 64
  /\ x = (x / 64) * 64 + x mod 64.
Proof.
  replace (x / 4096) with (x / 64 / 64) by (rewrite N.Div0.div_div; reflexivity).
  replace (x / 262144) with (x / 64 / 64 / 64) by (rewrite !N.Div0.div_div; reflexivity).
  pose proof (N.div_mod x 64 ltac:(discriminate)).
  pose proof (N.div_mod (x / 64) 64 ltac:(discriminate)).
  pose proof (N.div_mod (x / 64 / 64) 64 ltac:(discriminate)).
  lia.
Qed.

Lemma decode1_suffix (c : ascii) (s1 : string) :
  exists pre, s1 = (pre ++ snd (decode1 c s1))%string.
Proof.
  unfold decode1.
  destruct (N_of_ascii c <? 128); [exists ""; reflexivity|].
  destruct (N_of_ascii c <? 224).
  { destruct s1 as [|c1 s2]; [exists ""; reflexivity|].
    destruct (_ && _ && _); [exists (String c1 ""); reflexivity | exists ""; reflexivity]. }
  destruct (N_of_ascii c <? 240).
  { destruct s1 as [|c1 [|c2 s3]]; try (exists ""; reflexivity).
    destruct (_ && _ && _); [exists (String c1 (String c2 "")); reflexivity | exists ""; reflexivity]. }
  destruct (N_of_ascii c <? 248); [|exists ""; reflexivity].
  destruct s1 as [|c1 [|c2 [|c3 s4]]]; try (exists ""; reflexivity).
  destruct (_ && _ && _ && _ && _);
    [exists (String c1 (String c2 (String c3 ""))); reflexivity | exists ""; reflexivity].
Qed.

Lemma length_append_str (a b : string) :
  String.length (a ++ b) = (String.length a + String.length b)%nat.
Proof. induction a as [|c a IH]; simpl; [reflexivity|]. rewrite IH. reflexivity. Qed.

Lemma decode1_rest_length (c : ascii) (s1 : string) :
  (String.length (snd (decode1 c s1)) <= String.length s1)%nat.
Proof.
  destruct (decode1_suffix c s1) as [pre Hpre].
  rewrite Hpre at 2. rewrite length_append_str. lia.
Qed.

Lemma units_fuel_enough (n : nat) (s : string) :
  (String.length s <= n)%nat -> units_fuel n s = units s.
Proof.
  unfold units. remember (String.length s) as m eqn:Hm.
  revert s n Hm. induction m as [m IH] using lt_wf_ind.
  intros [|c s1] n Hm Hle; destruct n as [|n]; destruct m as [|m]; simpl in *;
    try reflexivity; try lia.
  destruct (decode1 c s1) as [us rest] eqn:Hd.
  pose proof (decode1_rest_length c s1) as Hr. rewrite Hd in Hr. simpl in Hr.
  f_equal. injection Hm as Hm.
  rewrite (IH (String.length rest)) by lia.
  rewrite (IH (String.length rest) ltac:(lia) rest m) by lia.
  reflexivity.
Qed.

Lemma units_String (c : ascii) (s1 : string) :
  units (String c s1) = fst (decode1 c s1) ++ units (snd (decode1 c s1)).
Proof.
  unfold units at 1. simpl.
  pose proof (decode1_rest_length c s1) as Hr.
  destruct (decode1 c s1) as [us rest]. simpl in *.
  rewrite units_fuel_enough by lia. reflexivity.
Qed.

Lemma units_enc1 (u : N) (t : string) : u < 128 -> units (String (byte_of u) t) = u :: units t.
Proof.
  intros Hu. rewrite units_String. unfold decode1. rewrite N_byte by lia.
  destruct (N.ltb_spec u 128); [reflexivity|lia].
Qed.

Lemma units_enc2 (u : N) (t : string) : 128 <= u < 2048 ->
  units (String (byte_of (192 + u / 64)) (String (byte_of (128 + u mod 64)) t)) = u :: units t.
Proof.
  intros Hu. pose proof (digits u) as [_ [_ Hd]].
  assert (Hq : u / 64 < 32) by narith.
  pose proof (N.mod_lt u 64 ltac:(discriminate)) as Hr.
  set (q := u / 64) in *. set (r := u mod 64) in *. clearbody q r.
  rewrite units_String. unfold decode1.
  rewrite (cont_byte (128 + r)) by lia. rewrite !N_byte by lia.
  rewrite (add_mod_small q 192 32), (add_mod_small r 128 64) by (reflexivity || lia).
  tests_lia; cbn [andb fst snd]; rewrite <- Hd; reflexivity.
Qed.

Lemma units_enc3 (u : N) (t : string) : 2048 <= u < 65536 ->
  units (enc3 u t) = u :: units t.
Proof.
  intros Hu. unfold enc3. pose proof (digits u) as [_ [Hd _]].
  assert (Hq : u / 4096 < 16) by narith.
  pose proof (N.mod_lt u 64 ltac:(discriminate)) as Hr.
  pose proof (N.mod_lt (u / 64) 64 ltac:(discriminate)) as Hr2.
  set (a := u / 4096) in *. set (b := (u / 64) mod 64) in *. set (c := u mod 64) in *.
  clearbody a b c.
  rewrite units_String. unfold decode1.
  rewrite !cont_byte by lia. rewrite !N_byte by lia.
  rewrite (add_mod_small a 224 16), (add_mod_small c 128 64), (add_mod_small b 128 64)
    by (reflexivity || lia).
  tests_lia; cbn [andb fst snd]; rewrite <- Hd; reflexivity.
Qed.

Lemma units_enc4 (u v : N) (t : string) : 55296 <= u < 56320 -> 56320 <= v < 57344 ->
  units (enc4 u v t) = u :: v :: units t.
Proof.
  intros Hu Hv. unfold enc4.
  assert (Hpair : forall cp, cp = 65536 + (u - 55296) * 1024 + (v - 56320) ->
            55296 + (cp - 65536) / 1024 = u /\ 56320 + (cp - 65536) mod 1024 = v)
    by (intros cp ->; split; narith).
  set (cp := 65536 + (u - 55296) * 1024 + (v - 56320)) in *.
  specialize (Hpair cp eq_refl).
  assert (Hcp : 65536 <= cp < 1114112) by (subst cp; lia).
  pose proof (digits cp) as [Hd _].
  assert (Hq : cp / 262144 < 8) by narith.
  pose proof (N.mod_lt cp 64 ltac:(discriminate)) as Hr.
  pose proof (N.mod_lt (cp / 64) 64 ltac:(discriminate)) as Hr2.
  pose proof (N.mod_lt (cp / 4096) 64 ltac:(discriminate)) as Hr3.
  set (a := cp / 262144) in *. set (b := (cp / 4096) mod 64) in *.
  set (c := (cp / 64) mod 64) in *. set (d := cp mod 64) in *.
  clearbody a b c d.
  rewrite units_String. unfold decode1.
  rewrite !cont_byte by lia. rewrite !N_byte by lia.
  rewrite (add_mod_small a 240 8), (add_mod_small b 128 64), (add_mod_small c 128 64),
    (add_mod_small d 128 64) by (reflexivity || lia).
  rewrite <- Hd. clearbody cp. tests_lia; cbn [andb fst snd].
  all: destruct Hpair as [-> ->]; reflexivity.
Qed.

Lemma encode_cons (u : N) (rest : list N) (t : string) :
  u < 65536 -> Forall (fun u => u < 65536) rest ->
  (forall rest', (List.length rest' <= List.length rest)%nat -> Forall (fun u => u < 65536) rest' ->
     units (encode rest' ++ t) = rest' ++ units t) ->
  units (encode (u :: rest) ++ t) = u :: rest ++ units t.
Proof.
  intros Hu Hrest IH. cbn [encode].
  destruct (N.ltb_spec u 128).
  { cbn [append]. rewrite units_enc1 by lia. rewrite IH by (auto || lia). reflexivity. }
  destruct (N.ltb_spec u 2048).
  { cbn [append]. rewrite units_enc2 by lia. rewrite IH by (auto || lia). reflexivity. }
  assert (E3 : units (enc3 u (encode rest) ++ t) = u :: rest ++ units t).
  { change (enc3 u (encode rest) ++ t)%string with (enc3 u (encode rest ++ t)).
    rewrite units_enc3 by lia. rewrite IH by (auto || lia). reflexivity. }
  destruct ((55296 <=? u) && (u <? 56320)) eqn:Hh; [|exact E3].
  destruct rest as [|v rest']; [exact E3|].
  destruct ((56320 <=? v) && (v <? 57344)) eqn:Hl; [|exact E3].
  apply andb_prop in Hh as [Hh1 Hh2]. apply andb_prop in Hl as [Hl1 Hl2].
  apply N.leb_le in Hh1, Hl1. apply N.ltb_lt in Hh2, Hl2.
  inversion Hrest; subst.
  change (enc4 u v (encode rest') ++ t)%string with (enc4 u v (encode rest' ++ t)).
  rewrite units_enc4 by lia. rewrite IH by (simpl; auto || lia). reflexivity.
Qed.

Lemma units_encode_app (l : list N) (t : string) :
  Forall (fun u => u < 65536) l -> units (encode l ++ t) = l ++ units t.
Proof.
  remember (List.length l) as n eqn:Hn. revert l Hn.
  induction n as [n IH] using lt_wf_ind. intros [|u rest] Hn Hb; [reflexivity|].
  inversion Hb as [|? ? Hu Hrest]; subst.
  apply encode_cons; [exact Hu | exact Hrest|].
  intros rest' Hle Hr. apply (IH (List.length rest')); [simpl; lia | reflexivity | exact Hr].
Qed.

Lemma append_empty (s : string) : (s ++ "")%string = s.
Proof. induction s as [|c s IH]; simpl; [reflexivity|]. rewrite IH. reflexivity. Qed.

Lemma units_encode (l : list N) : Forall (fun u => u < 65536) l -> units (encode l) = l.
Proof.
  intros H. rewrite <- (append_empty (encode l)). rewrite units_encode_app by exact H.
  apply app_nil_r.
Qed.

Lemma ascii_nl (c : ascii) : N_of_ascii c = 10 -> Ascii.eqb c "010"%char = true.
Proof.
  intros H. rewrite <- (ascii_N_embedding c), H. reflexivity.
Qed.

Lemma decode1_units (c : ascii) (s1 : string) (u : N) :
  In u (fst (decode1 c s1)) -> u < 65536 /\ (u = 10 -> Ascii.eqb c "010"%char = true).
Proof.
  pose proof (N_ascii_bounded c) as Hc.
  unfold decode1. set (b0 := N_of_ascii c) in *.
  assert (Hself : In u [b0] -> u < 65536 /\ (u = 10 -> Ascii.eqb c "010"%char = true)).
  { intros [<-|[]]. split; [lia|]. apply ascii_nl. }
  destruct (N.ltb_spec b0 128); [exact Hself|].
  assert (Hbig : In u [b0] -> u < 65536 /\ (u = 10 -> Ascii.eqb c "010"%char = true))
    by exact Hself.
  destruct (N.ltb_spec b0 224).
  { destruct s1 as [|c1 s2]; [exact Hself|].
    destruct (_ && _ && (128 <=? _)) eqn:E; [|exact Hself].
    apply andb_prop in E as [_ E]. apply N.leb_le in E.
    intros [<-|[]]. split; [|lia].
    pose proof (N.mod_lt b0 32 ltac:(discriminate)).
    pose proof (N.mod_lt (N_of_ascii c1) 64 ltac:(discriminate)). lia. }
  destruct (N.ltb_spec b0 240).
  { destruct s1 as [|c1 [|c2 s3]]; try exact Hself.
    destruct (_ && _ && (2048 <=? _)) eqn:E; [|exact Hself].
    apply andb_prop in E as [_ E]. apply N.leb_le in E.
    intros [<-|[]]. split; [|lia].
    pose proof (N.mod_lt b0 16 ltac:(discriminate)).
    pose proof (N.mod_lt (N_of_ascii c1) 64 ltac:(discriminate)).
    pose proof (N.mod_lt (N_of_ascii c2) 64 ltac:(discriminate)). lia. }
  destruct (N.ltb_spec b0 248); [|exact Hself].
  destruct s1 as [|c1 [|c2 [|c3 s4]]]; try exact Hself.
  destruct (_ && _ && _ && (65536 <=? ?[cp]) && _) eqn:E; [|exact Hself].
  apply andb_prop in E as [E E2]. apply andb_prop in E as [_ E1].
  apply N.leb_le in E1. apply N.ltb_lt in E2.
  set (cp := _ + _ + _ + _) in *. clearbody cp.
  assert (Hdiv : (cp - 65536) / 1024 < 1024) by narith.
  pose proof (N.mod_lt (cp - 65536) 1024 ltac:(discriminate)).
  set (x := (cp - 65536) / 1024) in *. set (y := (cp - 65536) mod 1024) in *.
  clearbody x y.
  intros [<-|[<-|[]]]; split; lia.
Qed.

Lemma units_elems (s : string) (u : N) :
  In u (units s) -> u < 65536 /\ (u = 10 -> no_nl s = false).
Proof.
  remember (String.length s) as n eqn:Hn. revert s Hn.
  induction n as [n IH] using lt_wf_ind. intros [|c s1] Hn Hin; [destruct Hin|].
  rewrite units_String in Hin. apply in_app_or in Hin as [Hin|Hin].
  - apply decode1_units in Hin as [Hb Hnl]. split; [exact Hb|].
    intros H10. simpl. rewrite (Hnl H10). reflexivity.
  - pose proof (decode1_rest_length c s1) as Hr.
    destruct (IH (String.length (snd (decode1 c s1)))) with (s := snd (decode1 c s1))
      as [Hb Hnl]; [simpl in Hn; lia | reflexivity | exact Hin |].
    split; [exact Hb|]. intros H10.
    destruct (decode1_suffix c s1) as [pre Hpre].
    simpl. rewrite Hpre.
    assert (Happ : forall a b, no_nl (a ++ b) = no_nl a && no_nl b).
    { induction a as [|x a IHa]; intros b; simpl; [reflexivity|].
      rewrite IHa. apply andb_assoc. }
    rewrite Happ, (Hnl H10), !andb_false_r. reflexivity.
Qed.

Lemma units_bounded (s : string) : Forall (fun u => u < 65536) (units s).
Proof. apply Forall_forall. intros u Hu. apply (units_elems s u Hu). Qed.

Lemma byte_not_nl (n : N) : n <> 10 -> n < 256 -> Ascii.eqb (byte_of n) "010"%char = false.
Proof.
  intros H10 Hn. apply Ascii.eqb_neq. intros E.
  apply (f_equal N_of_ascii) in E. rewrite N_byte in E by exact Hn. simpl in E. lia.
Qed.

Lemma encode_no_nl (l : list N) :
  Forall (fun u => u < 65536 /\ u <> 10) l -> no_nl (encode l) = true.
Proof.
  remember (List.length l) as n eqn:Hn. revert l Hn.
  induction n as [n IH] using lt_wf_ind. intros [|u rest] Hn Hb; [reflexivity|].
  inversion Hb as [|? ? [Hu H10] Hrest]; subst.
  assert (IHr : forall rest', (List.length rest' <= List.length rest)%nat ->
            Forall (fun u => u < 65536 /\ u <> 10) rest' -> no_nl (encode rest') = true).
  { intros rest' Hle Hr. apply (IH (List.length rest')); [simpl; lia | reflexivity | exact Hr]. }
  assert (E3 : no_nl (enc3 u (encode rest)) = true).
  { unfold enc3. cbn [no_nl].
    rewrite !byte_not_nl by narith. simpl. apply IHr; [lia | exact Hrest]. }
  cbn [encode].
  destruct (N.ltb_spec u 128).
  { cbn [no_nl]. rewrite byte_not_nl by lia. apply IHr; [lia | exact Hrest]. }
  destruct (N.ltb_spec u 2048).
  { cbn [no_nl]. rewrite !byte_not_nl by narith. apply IHr; [lia | exact Hrest]. }
  destruct ((55296 <=? u) && (u <? 56320)) eqn:Hh; [|exact E3].
  destruct rest as [|v rest'].
  { unfold enc3. cbn [no_nl]. rewrite !byte_not_nl by narith. reflexivity. }
  destruct ((56320 <=? v) && (v <? 57344)) eqn:Hl; [|exact E3].
  apply andb_prop in Hh as [Hh1 Hh2]. apply andb_prop in Hl as [Hl1 Hl2].
  apply N.leb_le in Hh1, Hl1. apply N.ltb_lt in Hh2, Hl2.
  inversion Hrest as [|? ? _ Hrest']; subst.
  unfold enc4. set (cp := 65536 + (u - 55296) * 1024 + (v - 56320)).
  assert (Hcp : 65536 <= cp < 1114112) by (subst cp; lia). clearbody cp.
  cbn [no_nl]. rewrite !byte_not_nl by narith. simpl. apply IHr; [simpl; lia | exact Hrest'].
Qed.

Lemma Forall_firstn_units {A : Type} (P : A -> Prop) (n : nat) (l : list A) :
  Forall P l -> Forall P (firstn n l).
Proof.
  revert l. induction n as [|n IH]; intros [|x l] H; simpl; try constructor.
  - inversion H; assumption.
  - apply IH. inversion H; assumption.
Qed.

Lemma Forall_drop_ws (P : N -> Prop) (l : list N) : Forall P l -> Forall P (drop_ws l).
Proof.
  induction l as [|u l IH]; intros H; simpl; [constructor|].
  destruct (is_ws u); [apply IH; inversion H; assumption | exact H].
Qed.

Lemma units_slice0 (n : nat) (s : string) : units (slice 0 n s) = firstn n (units s).
Proof.
  unfold slice. rewrite Nat.sub_0_r. simpl skipn.
  apply units_encode, Forall_firstn_units, units_bounded.
Qed.

Lemma js_length_slice0_app (n : nat) (s t : string) :
  js_length (slice 0 n s ++ t) = (Nat.min n (js_length s) + js_length t)%nat.
Proof.
  unfold js_length, slice. rewrite Nat.sub_0_r. simpl skipn.
  rewrite units_encode_app by (apply Forall_firstn_units, units_bounded).
  rewrite length_app, length_firstn. reflexivity.
Qed.

Lemma units_trim (s : string) : units (trim s) = rev (drop_ws (rev (drop_ws (units s)))).
Proof.
  unfold trim. apply units_encode.
  apply Forall_rev, Forall_drop_ws, Forall_rev, Forall_drop_ws, units_bounded.
Qed.

Lemma slice0_trim_short (n : nat) (s : string) :
  (js_length (trim s) <= n)%nat -> slice 0 n (trim s) = trim s.
Proof.
  intros H. unfold js_length in H. unfold slice. rewrite Nat.sub_0_r. simpl skipn.
  rewrite firstn_all2 by exact H. rewrite units_trim. reflexivity.
Qed.

Lemma units_no_10 (m : string) :
  no_nl m = true -> Forall (fun u => u < 65536 /\ u <> 10) (units m).
Proof.
  intros H. apply Forall_forall. intros u Hu.
  destruct (units_elems m u Hu) as [Hb Hn]. split; [exact Hb|].
  intros ->. rewrite (Hn eq_refl) in H. discriminate.
Qed.

End JSStringFacts.

Lemma report_lines_invalid_nth (e : ValidationError) (i : nat) (iss : ValidationIssue) :
  nth_error (invalid e) i = Some iss ->
  nth_error (report_lines e) (2 + length (missing e) + i) = Some (invalid_row iss).
Proof.
  intros Hi. unfold report_lines.
  rewrite nth_error_app2 by (simpl; lia). simpl.
  replace (length (missing e) + i - 0) with (length (map missing_row (missing e)) + i)
    by (rewrite length_map; lia).
  rewrite nth_error_app2 by lia.
  replace (length (map missing_row (missing e)) + i - length (map missing_row (missing e)))
    with i by lia.
  rewrite nth_error_map, Hi. reflexivity.
Qed.

(** C8: in the report of a [ValidationError] of [validate], the row of an
    invalid issue whose message is longer than 30 characters (UTF-16 code
    units, as [message.length] counts them) shows the first 30 code units of
    the message followed by [...], while [invalid[i].message] keeps the
    whole message extracted from the parse error. *)
Theorem report_truncates_long_messages (errors : string) (failInProd : option bool)
    (e : ValidationError) (Hv : exit_error (validate (Some errors) failInProd) = Some e)
    (i : nat) (iss : ValidationIssue) (Hi : nth_error (invalid e) i = Some iss)
    (Hlong : 30 < js_length (message iss)) :
  invalid e = snd (extract errors) /\
  report e = join nl (report_lines (mkValidationError (missing e) (invalid e) errors)) /\
  nth_error (report_lines (mkValidationError (missing e) (invalid e) errors))
    (2 + length (missing e) + i) =
    Some (padEnd (key iss) 10 ++ " | invalid   | " ++
          slice 0 30 (message iss) ++ "...")%string /\
  units (slice 0 30 (message iss)) = firstn 30 (units (message iss)) /\
  js_length (slice 0 30 (message iss)) = 30.
Proof.
  rewrite validate_error_shape in Hv. injection Hv as <-. simpl in *.
  split; [reflexivity|]. split; [reflexivity|]. split; [|split].
  - pose proof (report_lines_invalid_nth
               (mkValidationError (fst (extract errors)) (snd (extract errors)) errors)
               i iss Hi) as Hn.
    simpl in Hn. rewrite Hn.
    unfold invalid_row, shortMsg.
    apply Nat.ltb_lt in Hlong. rewrite Hlong. reflexivity.
  - apply units_slice0.
  - unfold js_length. rewrite units_slice0, length_firstn.
    unfold js_length in Hlong. lia.
Qed.

(** The formatted parse error of [exampleSchema] for a source whose [PORT]
    is [undefined]: its single issue has a 36-code-unit message. *)
Definition port_undefined_text : string :=
  join nl ["{ readonly NODE_ENV: string; readonly PORT: string; readonly API_KEY: string }";
           "└─ " ++ key_ref "PORT";
           "   └─ Expected string, actual undefined"]%string.

Lemma report_truncates_long_messages_witness :
  exit_error (validate (Some port_undefined_text) None) =
    Some (mkValidationError []
            [mkIssue "PORT" "└─ Expected string, actual undefined"]
            (join nl ["Key       | Status    | Details";
                      "-----------|-----------|--------";
                      "PORT       | invalid   | └─ Expected string, actual und..."])) /\
  nth_error (report_lines (mkValidationError []
               [mkIssue "PORT" "└─ Expected string, actual undefined"]
               port_undefined_text)) 2 =
    Some ("PORT      " ++ " | invalid   | " ++ "└─ Expected string, actual und" ++ "...")%string.
Proof.
  split; [reflexivity|].
  destruct (report_truncates_long_messages port_undefined_text None
              (mkValidationError []
                 [mkIssue "PORT" "└─ Expected string, actual undefined"]
                 (join nl ["Key       | Status    | Details";
                           "-----------|-----------|--------";
                           "PORT       | invalid   | └─ Expected string, actual und..."]))
              eq_refl 0 (mkIssue "PORT" "└─ Expected string, actual undefined")
              eq_refl ltac:(vm_compute; lia)) as [_ [_ [Hrow _]]].
  exact Hrow.
Defined.

(** A formatted parse error for a missing key longer than ten characters. *)
Definition missing_database_url_text : string :=
  join nl ["{ readonly DATABASE_URL: string }";
           "└─ " ++ key_ref "DATABASE_URL";
           "   └─ is missing"]%string.

(** C9 (counterexample): a twelve-character key is not cut to ten characters;
    its row keeps the whole key, so the column separator is not at column 10. *)
Lemma key_column_not_truncated :
  option_map report (exit_error (validate (Some missing_database_url_text) None)) =
    Some (join nl ["Key       | Status    | Details";
                   "-----------|-----------|--------";
                   "DATABASE_URL | missing   | required but not provided"]) /\
  substring 10 3 "DATABASE_URL | missing   | required but not provided" <> " | " /\
  "DATABASE_URL | missing   | required but not provided" <>
    (substring 0 10 "DATABASE_URL" ++ " | missing   | required but not provided")%string.
Proof.
  split; [reflexivity|]. split; discriminate.
Qed.

(** C9 (amended): every row starts with [key.padEnd(10)]: a key shorter than
    ten characters is padded with spaces on the right to ten characters and a
    longer key is kept whole; [validate] stores in its [ValidationError] the
    [missing] and [invalid] arrays it extracted, unchanged by the formatting. *)
Theorem key_column_padEnd :
  (forall k : string,
     padEnd k 10 = (k ++ spaces (10 - String.length k))%string /\
     String.length (padEnd k 10) = Nat.max 10 (String.length k)) /\
  (forall e : ValidationError,
     report_lines e =
       ["Key       | Status    | Details"; "-----------|-----------|--------"] ++
       map (fun k => padEnd k 10 ++ " | missing   | required but not provided")%string
         (missing e) ++
       map (fun iss => padEnd (key iss) 10 ++ " | invalid   | " ++ shortMsg (message iss))%string
         (invalid e)) /\
  (forall (errors : string) (failInProd : option bool),
     option_map (fun e => (missing e, invalid e))
       (exit_error (validate (Some errors) failInProd)) = Some (extract errors)).
Proof.
  split; [|split].
  - intros k. split; [reflexivity|].
    unfold padEnd. rewrite string_length_append, spaces_length. lia.
  - intros e. reflexivity.
  - intros errors failInProd. rewrite validate_error_shape. simpl.
    destruct (extract errors); reflexivity.
Qed.

(** ** Further properties of prefix enforcement *)

Lemma string_compare_le_trans (a b c : string) :
  String.compare a b <> Gt -> String.compare b c <> Gt -> String.compare a c <> Gt.
Proof.
  revert b c. induction a as [|x a IH]; intros [|y b] [|z c]; simpl; try congruence.
  unfold Ascii.compare.
  destruct (N.compare_spec (N_of_ascii x) (N_of_ascii y)) as [Hxy|Hxy|Hxy];
  destruct (N.compare_spec (N_of_ascii y) (N_of_ascii z)) as [Hyz|Hyz|Hyz];
  try congruence.
  - rewrite (proj2 (N.compare_eq_iff _ _) (eq_trans Hxy Hyz)). apply IH.
  - rewrite (proj2 (N.compare_lt_iff _ _)) by (rewrite Hxy; exact Hyz). congruence.
  - rewrite (proj2 (N.compare_lt_iff _ _)) by (rewrite <- Hyz; exact Hxy). congruence.
  - rewrite (proj2 (N.compare_lt_iff _ _)) by (eapply N.lt_trans; eassumption). congruence.
Qed.

Lemma str_le_trans (a b c : string) : str_le a b -> str_le b c -> str_le a c.
Proof.
  unfold str_le, String.leb.
  pose proof (string_compare_le_trans a b c) as H.
  destruct (String.compare a b), (String.compare b c), (String.compare a c);
    intuition congruence.
Qed.

Lemma sorted_nodup_unique (l1 l2 : list string) :
  Sorted str_le l1 -> Sorted str_le l2 -> NoDup l1 -> NoDup l2 ->
  (forall x, In x l1 <-> In x l2) -> l1 = l2.
Proof.
  intros S1 S2.
  apply Sorted_StronglySorted in S1; [|intros ? ? ?; apply str_le_trans].
  apply Sorted_StronglySorted in S2; [|intros ? ? ?; apply str_le_trans].
  revert l2 S2. induction S1 as [|a l1 S1 IH Hall1]; intros l2 S2 N1 N2 Heq.
  - destruct l2 as [|b l2]; [reflexivity|].
    exfalso. apply (proj2 (Heq b)). left. reflexivity.
  - destruct S2 as [|b l2 S2 Hall2].
    + exfalso. apply (proj1 (Heq a)). left. reflexivity.
    + assert (Hab : a = b).
      { destruct (proj1 (Heq a) (or_introl eq_refl)) as [->|Ha]; [reflexivity|].
        destruct (proj2 (Heq b) (or_introl eq_refl)) as [->|Hb]; [reflexivity|].
        apply String.leb_antisym.
        - exact (proj1 (Forall_forall _ _) Hall1 b Hb).
        - exact (proj1 (Forall_forall _ _) Hall2 a Ha). }
      subst b. f_equal.
      inversion N1 as [|? ? Na N1']; inversion N2 as [|? ? Nb N2']; subst.
      apply IH; [exact S2 | exact N1' | exact N2' |].
      intros x. split; intros Hx.
      * destruct (proj1 (Heq x) (or_intror Hx)) as [<-|H]; [contradiction|exact H].
      * destruct (proj2 (Heq x) (or_intror Hx)) as [<-|H]; [contradiction|exact H].
Qed.

Lemma resolveMeta_idem (meta : EnvMeta) (o : PartialEnvMeta) :
  resolveMeta (resolveMeta meta o) o = resolveMeta meta o.
Proof.
  destruct meta, o as [[] [] []]; reflexivity.
Qed.

(** Both modes passing on one result forces disjoint subsets: a key present
    in both the server and the client subset is a violation in one of the
    two modes. *)
Theorem enforce_both_modes_disjoint {V : Type} (config : PrefixEnforcementConfig)
    (r : ValidationResult V) (o : PartialEnvMeta)
    (Hs : enforce config r (mkOptions true o) = inr r)
    (Hc : enforce config r (mkOptions false o) = inr r) :
  forall k, In k (object_keys (server r)) -> ~ In k (object_keys (client r)).
Proof.
  intros k Hks Hkc.
  pose proof (proj1 enforce_outcome V config r (mkOptions true o)) as Es.
  pose proof (proj1 enforce_outcome V config r (mkOptions false o)) as Ec.
  cbv zeta in Es, Ec. simpl in Es, Ec. rewrite Hs in Es. rewrite Hc in Ec.
  destruct Es as [Es _]. destruct Ec as [Ec _].
  set (meta := resolveMeta (config_meta config) o) in *.
  destruct (In_dec string_dec k (clientKeys meta)) as [Hin|Hin].
  - assert (H : In k (serverViolations (server r) meta))
      by (apply serverViolations_In; unfold server_bad; auto).
    rewrite Es in H. exact H.
  - assert (H : In k (clientViolations (client r) meta))
      by (apply clientViolations_In; unfold client_bad; auto).
    rewrite Ec in H. exact H.
Qed.

Lemma enforce_both_modes_disjoint_witness :
  enforce (mkConfig leak_meta) (mkValidationResult [("A", 1)] [("PUBLIC_B", 2)])
      (mkOptions true noOverride) = inr (mkValidationResult [("A", 1)] [("PUBLIC_B", 2)]) /\
  enforce (mkConfig leak_meta) (mkValidationResult [("A", 1)] [("PUBLIC_B", 2)])
      (mkOptions false noOverride) = inr (mkValidationResult [("A", 1)] [("PUBLIC_B", 2)]) /\
  ~ In "A" (object_keys (client (mkValidationResult [("A", 1)] [("PUBLIC_B", 2)]))).
Proof.
  split; [reflexivity|]. split; [reflexivity|].
  apply (enforce_both_modes_disjoint (mkConfig leak_meta)
           (mkValidationResult [("A", 1)] [("PUBLIC_B", 2)]) noOverride eq_refl eq_refl).
  simpl. auto.
Defined.

Lemma violations_nil_iff (l : list string) : l = [] <-> forall k, ~ In k l.
Proof.
  split; [intros -> k []|]. destruct l as [|x l]; [reflexivity|].
  intros H. exfalso. apply (H x). left. reflexivity.
Qed.

(** Passing [enforce] is inherited by smaller records: if the selected
    subset of [r2] passes, so does a selected subset of [r1] whose keys are
    all keys of the former. *)
Theorem enforce_pass_sub_record {V : Type} (config : PrefixEnforcementConfig)
    (r1 r2 : ValidationResult V) (opts : PrefixEnforcementOptions)
    (Hsub : forall k,
        In k (object_keys (if isServer opts then server r1 else client r1)) ->
        In k (object_keys (if isServer opts then server r2 else client r2)))
    (Hpass : enforce config r2 opts = inr r2) :
  enforce config r1 opts = inr r1.
Proof.
  pose proof (proj1 enforce_outcome V config r2 opts) as E2.
  pose proof (proj1 enforce_outcome V config r1 opts) as E1.
  cbv zeta in E1, E2. rewrite Hpass in E2. destruct E2 as [E2 _].
  destruct (enforce config r1 opts) as [e|r'] eqn:He.
  - exfalso. destruct E1 as [Hne _]. apply Hne.
    apply violations_nil_iff. intros k Hk.
    apply violations_nil_iff with (k := k) in E2. apply E2.
    destruct (isServer opts).
    + apply serverViolations_In in Hk. apply serverViolations_In.
      destruct Hk as [Hk Hb]. split; [apply Hsub; exact Hk | exact Hb].
    + apply clientViolations_In in Hk. apply clientViolations_In.
      destruct Hk as [Hk Hb]. split; [apply Hsub; exact Hk | exact Hb].
  - destruct E1 as [_ ->]. reflexivity.
Qed.

Definition two_server_meta : EnvMeta :=
  {| serverKeys := ["A"; "B"]; clientKeys := []; clientPrefix := "" |}.

Lemma enforce_pass_sub_record_witness :
  enforce (mkConfig two_server_meta) (mkValidationResult [("B", 7)] []) server_opts =
    inr (mkValidationResult (V:=nat) [("B", 7)] []).
Proof.
  apply (enforce_pass_sub_record (mkConfig two_server_meta)
           (mkValidationResult [("B", 7)] [])
           (mkValidationResult [("A", 1); ("B", 2)] []) server_opts).
  - intros k Hk. simpl in *. destruct Hk as [<-|[]]. right. left. reflexivity.
  - reflexivity.
Defined.

(** The reported violations depend only on the set of keys of the record,
    not on the order or repetition of its entries. *)
Theorem violations_key_order_independent {V : Type} (env1 env2 : EnvRecord V)
    (meta : EnvMeta)
    (Hkeys : forall k, In k (object_keys env1) <-> In k (object_keys env2)) :
  serverViolations env1 meta = serverViolations env2 meta /\
  clientViolations env1 meta = clientViolations env2 meta.
Proof.
  split; apply sorted_nodup_unique;
    try (apply uniqueSorted_sorted || apply uniqueSorted_NoDup).
  - intros x. rewrite !serverViolations_In, Hkeys. tauto.
  - intros x. rewrite !clientViolations_In, Hkeys. tauto.
Qed.

Lemma violations_key_order_independent_witness :
  serverViolations [("Z", 1); ("PUBLIC_B", 2); ("Q", 3)] leak_meta = ["PUBLIC_B"; "Q"; "Z"] /\
  serverViolations [("Q", 3); ("Z", 1); ("PUBLIC_B", 2)] leak_meta = ["PUBLIC_B"; "Q"; "Z"].
Proof.
  split; [reflexivity|].
  rewrite <- (proj1 (violations_key_order_independent
                       [("Z", 1); ("PUBLIC_B", 2); ("Q", 3)]
                       [("Q", 3); ("Z", 1); ("PUBLIC_B", 2)] leak_meta
                       ltac:(intros k; simpl; tauto))).
  reflexivity.
Defined.

(** ** Properties of issue collection and of the raw-record helpers *)

(** [collectIssues] yields one issue per leaf of the failure tree, left to
    right, keyed by the leaf's formatted path: AND and OR nodes are both
    expanded, the four leaf kinds give the same issue (so a missing and an
    invalid value are not told apart), and a failure always carries at least
    one issue. *)
Theorem collectIssues_leaves :
  (forall e : ConfigError,
     collectIssues e = map (fun '(p, m) => mkIssue (formatPath p) m) (leaves e) /\
     collectIssues e <> []) /\
  (forall (p : list string) (m : string),
     collectIssues (MissingData p m) = collectIssues (InvalidData p m)) /\
  (forall l r : ConfigError, collectIssues (And l r) = collectIssues (Or l r)).
Proof.
  split; [|split; reflexivity].
  intros e. unfold collectIssues.
  induction e as [l IHl r IHr|l IHl r IHr|p m|p m|p m|p m]; simpl;
    try (split; [reflexivity | discriminate]).
  all: destruct IHl as [Hl Nl], IHr as [Hr Nr].
  all: split; [rewrite map_app, Hl, Hr; reflexivity|].
  all: destruct (visit l); [congruence | discriminate].
Qed.

Lemma map_get_set (m : StrMap) (k v k' : string) :
  map_get (map_set m k v) k' = if String.eqb k' k then Some v else map_get m k'.
Proof.
  induction m as [|[k0 w] m IH]; simpl.
  - reflexivity.
  - case_eq (String.eqb k k0); intros H; simpl.
    + apply String.eqb_eq in H. subst k0. destruct (String.eqb k' k); reflexivity.
    + rewrite IH. case_eq (String.eqb k' k); intros H'; [|reflexivity].
      apply String.eqb_eq in H'. subst k'. rewrite H. reflexivity.
Qed.

Lemma map_get_fold_set (l : list (string * string)) (m : StrMap) (k : string) :
  NoDup (map fst l) ->
  map_get (fold_left (fun m '(k, v) => map_set m k v) l m) k =
    match map_get l k with Some v => Some v | None => map_get m k end.
Proof.
  revert m. induction l as [|[k0 v0] l IH]; intros m Hnd; simpl; [reflexivity|].
  inversion Hnd as [|? ? Hk0 Hnd']; subst.
  rewrite IH by exact Hnd'. rewrite map_get_set.
  case_eq (String.eqb k k0); intros H.
  - apply String.eqb_eq in H. subst k0.
    assert (Hn : map_get l k = None).
    { clear -Hk0. induction l as [|[k1 v1] l IH]; simpl; [reflexivity|].
      simpl in Hk0. case_eq (String.eqb k k1); intros H.
      - apply String.eqb_eq in H. subst. exfalso. apply Hk0. left. reflexivity.
      - apply IH. intros Hin. apply Hk0. right. exact Hin. }
    rewrite Hn. reflexivity.
  - reflexivity.
Qed.

Lemma map_fst_all_incl (raw : RawEnv) (k : string) :
  In k (map fst (all raw)) -> In k (map fst raw).
Proof.
  induction raw as [|[k0 [v|]] raw IH]; simpl; auto.
  intros [H|H]; auto.
Qed.

Lemma all_NoDup (raw : RawEnv) : NoDup (map fst raw) -> NoDup (map fst (all raw)).
Proof.
  induction raw as [|[k0 [v|]] raw IH]; simpl; intros Hnd; inversion Hnd; subst.
  - constructor.
  - constructor; [|apply IH; assumption].
    intros Hin. apply map_fst_all_incl in Hin. contradiction.
  - apply IH. assumption.
Qed.

Lemma map_get_all (raw : RawEnv) (k : string) :
  NoDup (map fst raw) -> map_get (all raw) k = obj_get raw k.
Proof.
  induction raw as [|[k0 v] raw IH]; intros Hnd; simpl; [reflexivity|].
  inversion Hnd as [|? ? Hk0 Hnd']; subst.
  destruct v as [v|]; simpl.
  - destruct (String.eqb k k0); [reflexivity|]. apply IH, Hnd'.
  - case_eq (String.eqb k k0); intros H; [|apply IH, Hnd'].
    apply String.eqb_eq in H. subst k0. rewrite IH by exact Hnd'.
    clear -Hk0. induction raw as [|[k1 w] raw IH]; simpl; [reflexivity|].
    simpl in Hk0. case_eq (String.eqb k k1); intros H.
    + apply String.eqb_eq in H. subst. exfalso. apply Hk0. left. reflexivity.
    + apply IH. intros Hin. apply Hk0. right. exact Hin.
Qed.

Lemma toMap_entries (raw : RawEnv) (acc : list (string * string)) :
  fold_left (fun acc '(k, v) => match v with Some s => acc ++ [(k, s)] | None => acc end)
    raw acc = acc ++ all raw.
Proof.
  revert acc. induction raw as [|[k v] raw IH]; intros acc; simpl.
  - rewrite app_nil_r. reflexivity.
  - destruct v as [s|]; rewrite IH; [rewrite <- app_assoc; reflexivity | reflexivity].
Qed.

(** The map [toMap] hands to the config provider holds exactly the keys of
    the raw record whose value is defined, with that value. *)
Theorem toMap_lookup (raw : RawEnv) (Hkeys : NoDup (map fst raw)) (k : string) :
  map_get (toMap raw) k = obj_get raw k.
Proof.
  unfold toMap, new_Map. rewrite toMap_entries. simpl.
  rewrite map_get_fold_set by (apply all_NoDup, Hkeys).
  rewrite map_get_all by exact Hkeys. destruct (obj_get raw k); reflexivity.
Qed.

Lemma toMap_lookup_witness :
  NoDup (map fst [("HOST", Some "h"); ("PORT", None)]) /\
  map_get (toMap [("HOST", Some "h"); ("PORT", None)]) "PORT" = None.
Proof.
  assert (Hnd : NoDup (map fst [("HOST", Some "h"); ("PORT", None)])).
  { simpl. constructor; [simpl; intros [H|[]]; discriminate|].
    constructor; [intros []|constructor]. }
  split; [exact Hnd|].
  rewrite (toMap_lookup [("HOST", Some "h"); ("PORT", None)] Hnd "PORT").
  reflexivity.
Defined.

(** [all()] returns exactly the defined entries of the raw record. *)
Theorem all_lookup (raw : RawEnv) (Hkeys : NoDup (map fst raw)) (k : string) :
  map_get (all raw) k = obj_get raw k /\ NoDup (map fst (all raw)).
Proof.
  split; [apply map_get_all, Hkeys | apply all_NoDup, Hkeys].
Qed.

Lemma all_lookup_witness :
  NoDup (map fst [("A", Some "1"); ("B", None)]) /\
  map_get (all [("A", Some "1"); ("B", None)]) "A" = Some "1".
Proof.
  assert (Hnd : NoDup (map fst [("A", Some "1"); ("B", None)])).
  { simpl. constructor; [simpl; intros [H|[]]; discriminate|].
    constructor; [intros []|constructor]. }
  split; [exact Hnd|].
  rewrite (proj1 (all_lookup [("A", Some "1"); ("B", None)] Hnd "A")).
  reflexivity.
Defined.

(** ** Properties of the [Env] accessors *)




Lemma obj_get_set (raw : RawEnv) (k v k' : string) :
  obj_get (obj_set raw k v) k' = if String.eqb k' k then Some v else obj_get raw k'.
Proof.
  induction raw as [|[k0 w] raw IH]; simpl.
  - reflexivity.
  - case_eq (String.eqb k k0); intros H; simpl.
    + apply String.eqb_eq in H. subst k0. destruct (String.eqb k' k); reflexivity.
    + rewrite IH. case_eq (String.eqb k' k); intros H'; [|reflexivity].
      apply String.eqb_eq in H'. subst k'. rewrite H. reflexivity.
Qed.

(** [withOverride] in production fails without running the effect;
    otherwise the effect runs on a record that maps the overridden key to
    the new value and every other key as before. *)
Theorem withOverride_spec {A : Type} (nodeEnv : option string) (raw : RawEnv)
    (key value : string) (fa : RawEnv -> EnvError + A) :
  (nodeEnv = Some "production" /\
   withOverride nodeEnv raw key value fa =
     inl (mkEnvError "withOverride is not allowed in production")) \/
  (nodeEnv <> Some "production" /\
   exists raw', withOverride nodeEnv raw key value fa = fa raw' /\
     forall k, obj_get raw' k = if String.eqb k key then Some value else obj_get raw k).
Proof.
  unfold withOverride. case_eq (option_eqb nodeEnv "production"); intros He.
  - left. destruct nodeEnv as [s|]; [|discriminate].
    apply String.eqb_eq in He. subst. split; reflexivity.
  - right. split.
    + intros ->. discriminate.
    + exists (obj_set raw key value). split; [reflexivity|].
      intros k. apply obj_get_set.
Qed.

Lemma append_empty_r (s : string) : (s ++ "")%string = s.
Proof. induction s as [|c s IH]; simpl; [reflexivity | rewrite IH; reflexivity]. Qed.

(** The value quoted in the errors of [getNumber] and [getJson] is cut to
    60 UTF-16 code units plus [...]: at most 63 code units, and the whole
    value when it has at most 60. *)
Theorem accessor_error_snippet (Num Json : Type) (to_finite : string -> option Num)
    (json_parse : string -> option Json) (raw : RawEnv) (key : string) :
  (forall e, getNumber Num to_finite raw key = inl e ->
     e = not_found key \/
     exists v snippet, obj_get raw key = Some v /\ to_finite (trim v) = None /\
       env_error_message e = ("Invalid number for " ++ key ++ ": " ++ snippet)%string /\
       js_length snippet <= 63 /\
       (js_length (trim v) <= 60 -> snippet = trim v)) /\
  (forall e, getJson Json json_parse raw key = inl e ->
     e = not_found key \/
     exists v snippet, obj_get raw key = Some v /\ json_parse v = None /\
       env_error_message e = ("Invalid JSON for " ++ key ++ ": " ++ snippet)%string /\
       js_length snippet <= 63 /\
       (js_length v <= 60 -> snippet = v)).
Proof.
  assert (H3 : js_length "..." = 3) by reflexivity.
  assert (H0 : js_length "" = 0) by reflexivity.
  split; intros e; unfold getNumber, getJson;
    destruct (obj_get raw key) as [v|]; intros H;
    try (injection H as <-; left; reflexivity).
  - destruct (to_finite (trim v)) eqn:Hf; [discriminate|].
    injection H as <-. right.
    exists v, (slice 0 60 (trim v) ++
               (if Nat.ltb 60 (js_length (trim v)) then "..." else ""))%string.
    repeat split; [exact Hf | |].
    + rewrite js_length_slice0_app.
      destruct (Nat.ltb 60 _); [rewrite H3 | rewrite H0]; lia.
    + intros Hle. rewrite slice0_trim_short by exact Hle.
      apply Nat.ltb_ge in Hle. rewrite Hle. apply append_empty_r.
  - destruct (json_parse v) eqn:Hf; [discriminate|].
    injection H as <-. right.
    exists v, (if Nat.ltb 60 (js_length v) then (slice 0 60 v ++ "...")%string else v).
    repeat split; [exact Hf | |].
    + case_eq (Nat.ltb 60 (js_length v)); intros Hl.
      * rewrite js_length_slice0_app, H3. lia.
      * apply Nat.ltb_ge in Hl. lia.
    + intros Hle. apply Nat.ltb_ge in Hle. rewrite Hle. reflexivity.
Qed.

(** ** Which key [validate] reports *)

(** The key references of the error lines, in order. *)
Definition key_refs (lines : list string) : list string :=
  flat_map (fun l => match match_key l with Some k => [k] | None => [] end) lines.

Lemma last_cons_default {A : Type} (l : list A) (x d : A) : last (x :: l) d = last l x.
Proof.
  revert x d. induction l as [|y l IH]; intros x d; [reflexivity|].
  change (last (y :: l) d = last (y :: l) x). rewrite !IH. reflexivity.
Qed.

Lemma scan_currentKey (lines : list string) (st : ScanState) :
  currentKey (fold_left scan_line lines st) =
    last (map Some (key_refs lines)) (currentKey st).
Proof.
  revert st. induction lines as [|l lines IH]; intros st; simpl; [reflexivity|].
  rewrite IH. unfold scan_line.
  destruct (match_key l) as [k|]; simpl.
  - symmetry. apply last_cons_default.
  - destruct (currentKey st) as [k|] eqn:Hc.
    + destruct (truthy k && truthy (trim l)); simpl; rewrite ?Hc; reflexivity.
    + rewrite Hc. reflexivity.
Qed.

Lemma match_at_truthy (s k : string) : match_at s = Some k -> truthy k = true.
Proof.
  unfold match_at. destruct s as [|c1 [|c2 rest]]; try discriminate.
  destruct (Ascii.eqb c1 "["%char && Ascii.eqb c2 dq); [|discriminate].
  destruct (quoted_body rest) as [[[|x k0] [|c3 r]]|]; try discriminate.
  destruct (Ascii.eqb c3 "]"%char); [|discriminate].
  intros H. injection H as <-. reflexivity.
Qed.

Lemma match_key_eq (s : string) :
  match_key s = match match_at s with
                | Some k => Some k
                | None => match s with EmptyString => None | String _ s' => match_key s' end
                end.
Proof. destruct s; reflexivity. Qed.

Lemma match_key_truthy (s : string) (k : string) : match_key s = Some k -> truthy k = true.
Proof.
  induction s as [|c s IH]; rewrite match_key_eq; intros H.
  - destruct (match_at "") eqn:Hm; [|discriminate].
    injection H as <-. apply (match_at_truthy _ _ Hm).
  - destruct (match_at (String c s)) eqn:Hm.
    + injection H as <-. apply (match_at_truthy _ _ Hm).
    + apply IH, H.
Qed.

Lemma last_some_In (l : list string) (k : string) :
  last (map Some l) None = Some k -> In k l.
Proof.
  induction l as [|x l IH]; simpl; [discriminate|].
  destruct l as [|y l]; simpl.
  - intros H. injection H as ->. left. reflexivity.
  - intros H. right. apply IH, H.
Qed.

(** [validate] reports a single key: the last key reference of the
    formatted error, as missing or invalid; when the error has no key
    reference, both lists are empty. *)
Theorem extract_reports_last_key (errors : string) :
  fst (extract errors) ++ map key (snd (extract errors)) =
    match last (map Some (key_refs (split_nl errors))) None with
    | Some k => [k]
    | None => []
    end.
Proof.
  unfold extract, scan, categorize.
  rewrite scan_currentKey. simpl.
  destruct (last (map Some (key_refs (split_nl errors))) None) as [k|] eqn:Hl;
    [|reflexivity].
  assert (Ht : truthy k = true).
  { apply last_some_In in Hl. unfold key_refs in Hl.
    apply in_flat_map in Hl. destruct Hl as [l [_ Hk]].
    destruct (match_key l) eqn:Hm; [|destruct Hk].
    destruct Hk as [<-|[]]. apply (match_key_truthy l), Hm. }
  rewrite Ht. destruct (_ || _); reflexivity.
Qed.

(** ** Environment loading and the env service pipeline *)

Lemma mergeMeta_resolve_idem (meta : EnvMeta) (o : PartialEnvMeta) :
  resolveMeta (mergeMeta meta o) o = mergeMeta meta o.
Proof. apply resolveMeta_idem. Qed.

(** A successful [load] returns the loaded record and the validated result
    unchanged; its mode is the call's [isServer], else the configured one,
    else server; [env] is the matching subset; each meta field comes from the
    call's override, else the service's override, else the meta of the
    configured compiled schema (a compiled schema passed in the call does not
    change the meta); and [env] has no violation under the returned meta. *)
Theorem load_success {P V LE VE : Type}
    (validateWith : CompiledEnv P -> RawEnv -> VE + ValidationResult V)
    (config : EnvServiceConfig P) (raw : RawEnv) (options : EnvServiceOptions P)
    (R : EnvServiceResult V)
    (Hok : load validateWith config (inr (A:=LE) raw) options = inr R) :
  let isServer := nullish (options_isServer options) (nullish (config_isServer config) true) in
  let o := opt_partial (options_metaOverride options) in
  let c := opt_partial (config_metaOverride config) in
  let base := compiled_meta (config_compiled config) in
  res_raw R = raw /\
  validateWith (nullish (options_compiled options) (config_compiled config)) raw =
    inr (res_validation R) /\
  res_mode R = (if isServer then ServerMode else ClientMode) /\
  res_env R = (if isServer then server (res_validation R) else client (res_validation R)) /\
  serverKeys (res_meta R) =
    nullish (o_serverKeys o) (nullish (o_serverKeys c) (serverKeys base)) /\
  clientKeys (res_meta R) =
    nullish (o_clientKeys o) (nullish (o_clientKeys c) (clientKeys base)) /\
  clientPrefix (res_meta R) =
    nullish (o_clientPrefix o) (nullish (o_clientPrefix c) (clientPrefix base)) /\
  (if isServer then serverViolations (res_env R) (res_meta R)
   else clientViolations (res_env R) (res_meta R)) = [].
Proof.
  cbv zeta. unfold load in Hok.
  destruct (validateWith _ raw) as [ve|validation] eqn:Hv; [discriminate|].
  match type of Hok with
  | context [enforce ?cfg ?v ?op] =>
      pose proof (proj1 enforce_outcome V cfg v op) as E;
      cbv zeta in E; simpl in E;
      destruct (enforce cfg v op) as [pe|enforced]; [discriminate|]
  end.
  destruct E as [Hnil ->].
  rewrite mergeMeta_resolve_idem in Hnil.
  destruct (options_compiled options); simpl in Hv;
  destruct (config_metaOverride config); simpl in *;
  destruct (nullish (options_isServer options) (nullish (config_isServer config) true));
  injection Hok as <-; simpl; repeat split; try reflexivity; try exact Hv; exact Hnil.
Qed.

(** The end-to-end scenario: a schema requiring [SERVER] and [PUBLIC], both
    provided, with client prefix [PUBLIC]. *)
Definition e2e_meta : EnvMeta := mkEnvMeta ["SERVER"] ["PUBLIC"] "PUBLIC".

Definition e2e_validate (c : CompiledEnv unit) (raw : RawEnv) : unit + ValidationResult string :=
  inr (mkValidationResult [("SERVER", "secret")] [("PUBLIC", "value")]).

Definition e2e_config : EnvServiceConfig unit :=
  mkServiceConfig (mkCompiled tt e2e_meta) None None.

Definition e2e_raw : RawEnv := [("SERVER", Some "secret"); ("PUBLIC", Some "value")].

Lemma load_success_witness :
  load e2e_validate e2e_config (inr (A:=unit) e2e_raw) (mkServiceOptions None None (Some false)) =
    inr (mkServiceResult ClientMode e2e_raw
           (mkValidationResult [("SERVER", "secret")] [("PUBLIC", "value")])
           e2e_meta [("PUBLIC", "value")]) /\
  res_mode (mkServiceResult ClientMode e2e_raw
              (mkValidationResult [("SERVER", "secret")] [("PUBLIC", "value")])
              e2e_meta [("PUBLIC", "value")]) = ClientMode.
Proof.
  split; [reflexivity|].
  apply (load_success (LE:=unit) e2e_validate e2e_config e2e_raw
           (mkServiceOptions None None (Some false)) _ eq_refl).
Defined.

(** ** Reading the validation report back, and the exit of [validate] *)

Lemma split_nl_single (a : string) : no_nl a = true -> split_nl a = [a].
Proof.
  induction a as [|c a IH]; simpl; [reflexivity|].
  intros H. apply andb_prop in H as [Hc Ha]. apply negb_true_iff in Hc.
  rewrite Hc, IH by exact Ha. reflexivity.
Qed.

Lemma split_nl_app (a b : string) :
  no_nl a = true -> split_nl (a ++ String "010"%char b)%string = a :: split_nl b.
Proof.
  induction a as [|c a IH]; simpl; intros H; [reflexivity|].
  apply andb_prop in H as [Hc Ha]. apply negb_true_iff in Hc.
  rewrite Hc, IH by exact Ha. reflexivity.
Qed.

Lemma split_nl_join (l : list string) :
  Forall (fun s => no_nl s = true) l -> l <> [] -> split_nl (join nl l) = l.
Proof.
  induction 1 as [|x l Hx Hl IH]; intros Hne; [congruence|].
  destruct l as [|y l].
  - apply split_nl_single, Hx.
  - change (join nl (x :: y :: l)) with (x ++ String "010"%char (join nl (y :: l)))%string.
    rewrite split_nl_app by exact Hx. rewrite IH by discriminate. reflexivity.
Qed.

Lemma no_nl_append (a b : string) : no_nl (a ++ b) = no_nl a && no_nl b.
Proof.
  induction a as [|c a IH]; simpl; [reflexivity|].
  rewrite IH. apply andb_assoc.
Qed.

Lemma no_nl_spaces (n : nat) : no_nl (spaces n) = true.
Proof. induction n as [|n IH]; simpl; [reflexivity|exact IH]. Qed.

Lemma no_nl_shortMsg (m : string) : no_nl m = true -> no_nl (shortMsg m) = true.
Proof.
  intros H. unfold shortMsg. destruct (Nat.ltb 30 (js_length m)); [|exact H].
  rewrite no_nl_append. unfold slice. rewrite Nat.sub_0_r. simpl skipn.
  rewrite encode_no_nl; [reflexivity|].
  apply Forall_firstn_units, units_no_10, H.
Qed.

(** When no key and no message contains a line feed, splitting the report
    of [formatValidationReport] on line feeds gives back its rows: the
    header, the separator, one row per missing key and then one row per
    invalid entry, in order. *)
Theorem report_split_rows (e : ValidationError)
    (Hm : Forall (fun k => no_nl k = true) (missing e))
    (Hi : Forall (fun i => no_nl (key i) && no_nl (message i) = true) (invalid e)) :
  split_nl (formatValidationReport e) = report_lines e /\
  length (split_nl (formatValidationReport e)) = 2 + length (missing e) + length (invalid e).
Proof.
  assert (Hrows : split_nl (formatValidationReport e) = report_lines e).
  { unfold formatValidationReport. apply split_nl_join; [|unfold report_lines; discriminate].
    unfold report_lines. constructor; [reflexivity|]. constructor; [reflexivity|].
    apply Forall_app. split.
    - apply Forall_map. eapply Forall_impl; [|exact Hm]. intros k Hk.
      unfold missing_row, padEnd. rewrite !no_nl_append, Hk, no_nl_spaces. reflexivity.
    - apply Forall_map. eapply Forall_impl; [|exact Hi]. intros i H.
      apply andb_prop in H as [Hk Hmsg].
      unfold invalid_row, padEnd.
      rewrite !no_nl_append, Hk, no_nl_spaces, no_nl_shortMsg by exact Hmsg. reflexivity. }
  split; [exact Hrows|].
  rewrite Hrows. unfold report_lines. rewrite !length_app, !length_map. reflexivity.
Qed.

Lemma report_split_rows_witness :
  Forall (fun k => no_nl k = true) ["PORT"] /\
  Forall (fun i => no_nl (key i) && no_nl (message i) = true)
    [mkIssue "API_KEY" "Expected string, actual undefined and more"] /\
  length (split_nl (formatValidationReport
    (mkValidationError ["PORT"] [mkIssue "API_KEY" "Expected string, actual undefined and more"] ""))) = 4.
Proof.
  assert (Hm : Forall (fun k => no_nl k = true) ["PORT"]) by (repeat constructor).
  assert (Hi : Forall (fun i => no_nl (key i) && no_nl (message i) = true)
                 [mkIssue "API_KEY" "Expected string, actual undefined and more"])
    by (repeat constructor).
  split; [exact Hm|]. split; [exact Hi|].
  exact (proj2 (report_split_rows
    (mkValidationError ["PORT"] [mkIssue "API_KEY" "Expected string, actual undefined and more"] "")
    Hm Hi)).
Defined.


